(** * HTTP reply test server: test-case resolution and the connection loop

    A shallow embedding of [HTTP-reply-test-server.py].  The script listens on
    a TCP port and answers each accepted connection with a recorded payload
    (a "test case") taken from a single file, a zip archive or a directory.

    Python integers are unbounded and are modelled by [Z]; byte strings are
    [list byte].  A file or member name is the [string] of its characters,
    each character standing for the code point of its number, so that names
    range over the code points below 256; on these [Py.int] follows
    CPython's [int], and names with larger code points are outside the
    model.  The file system, the network and the clock are the environment:
    the file system is a finite description of what each path holds, and the
    network is a script giving the outcome of each successive call to
    [accept], together with how the accepted connection behaves and whether
    the pause made while it is held returns. *)

From Stdlib Require Import List Strings.String Strings.Ascii Strings.Byte ZArith NArith Bool Lia.
From Stdlib Require Import Sorting.Sorted Sorting.Permutation.
Import ListNotations.
Open Scope Z_scope.

Definition bytes := list byte.

(** ** Python built-ins used by the resolver *)

Module Py.

(** White space skipped by [int(str)] around the number: TAB, LF, VT, FF,
    CR and the space, and of the code points from 128 to 255 the two that
    are Unicode white space, NEL (133) and the no-break space (160), which
    [int] turns into spaces before it parses.  The separators FS, GS, RS
    and US (28 to 31) are not skipped. *)
Definition is_space (c : ascii) : bool :=
  let n := N_of_ascii c in
  (((9 <=? n) && (n <=? 13)) || (n =? 32) || (n =? 133) || (n =? 160))%N.

Definition digit_value (c : ascii) : option Z :=
  let n := N_of_ascii c in
  if ((48 <=? n) && (n <=? 57))%N then Some (Z.of_N n - 48) else None.

Definition is_underscore (c : ascii) : bool := (c =? "_")%char.

Fixpoint skip_spaces (l : list ascii) : list ascii :=
  match l with
  | c :: r => if is_space c then skip_spaces r else l
  | [] => []
  end.

(** The digit scan of [PyLong_FromString] in base 10: digits, with single
    underscores allowed between two digits.  [prev_us] tells that the last
    character read was an underscore.  Returns the value, the number of
    digits read and the unread suffix. *)
Fixpoint scan_digits (prev_us : bool) (acc : Z) (n : nat) (l : list ascii)
  : option (Z * nat * list ascii) :=
  match l with
  | [] => if prev_us then None else Some (acc, n, [])
  | c :: r =>
      match digit_value c with
      | Some d => scan_digits false (10 * acc + d) (S n) r
      | None =>
          if is_underscore c
          then (if prev_us then None else scan_digits true acc n r)
          else (if prev_us then None else Some (acc, n, l))
      end
  end.

(** Default of [sys.get_int_max_str_digits()]: longer decimal strings make
    [int] raise [ValueError]. *)
Definition int_max_str_digits : nat := 4300.

Definition starts_with_underscore (l : list ascii) : bool :=
  match l with
  | c :: _ => is_underscore c
  | [] => false
  end.

(** [int(s)] for a [str] argument and the default base 10; [None] stands for
    [ValueError]. *)
Definition int (s : string) : option Z :=
  let l := skip_spaces (list_ascii_of_string s) in
  let '(negative, l) :=
    match l with
    | "+"%char :: r => (false, r)
    | "-"%char :: r => (true, r)
    | _ => (false, l)
    end in
  if starts_with_underscore l then None
  else
    match scan_digits false 0 0%nat l with
    | None => None
    | Some (v, n, tail) =>
        match n, skip_spaces tail with
        | S _, [] =>
            if (n <=? int_max_str_digits)%nat
            then Some (if negative then - v else v)
            else None
        | _, _ => None
        end
    end.

Fixpoint has_slash (s : string) : bool :=
  match s with
  | EmptyString => false
  | String c r => (c =? "/")%char || has_slash r
  end.

(** [os.path.basename] (POSIX): what follows the last slash. *)
Fixpoint basename (s : string) : string :=
  match s with
  | EmptyString => EmptyString
  | String c r =>
      if has_slash r then basename r
      else if (c =? "/")%char then r else s
  end.

(** Truth value of an optional string attribute: [None] and the empty string
    are false. *)
Definition truthy (o : option string) : bool :=
  match o with
  | Some s => negb (s =? "")%string
  | None => false
  end.

(** [a or b] on an optional string with a string default. *)
Definition or_else (o : option string) (d : string) : string :=
  match o with
  | Some s => if (s =? "")%string then d else s
  | None => d
  end.

Section Sort.
Context {A : Type} (leb : A -> A -> bool).

Fixpoint insert (x : A) (l : list A) : list A :=
  match l with
  | [] => [x]
  | y :: r => if leb x y then x :: l else y :: insert x r
  end.

(** [sorted(l)] and [l.sort()]: a stable sort for the order [leb]. *)
Fixpoint sorted (l : list A) : list A :=
  match l with
  | [] => []
  | x :: r => insert x (sorted r)
  end.
End Sort.

(** Order of [(int, str)] tuples: first component, then the string. *)
Definition tuple_leb (a b : Z * string) : bool :=
  (fst a <? fst b) || ((fst a =? fst b) && String.leb (snd a) (snd b)).

(** [sys.maxsize] on a 64-bit build. *)
Definition maxsize : Z := 2 ^ 63 - 1.

(** [time.sleep(ms / 1000)] raises [OverflowError] whatever the clock when
    the delay, in nanoseconds, does not fit a signed 64-bit integer: from
    9223372036855 ms on. *)
Definition sleep_overflows (ms : Z) : bool := 9223372036855 <=? ms.

End Py.

(** ** The server object and its environment *)

(** Attributes of [HTTPReplyTestServer] set by [__init__] and [main]
    ([server_socket] is part of the environment below). *)
Record HTTPReplyTestServer := {
  port : Z;
  close_delay : Z;
  start_index : Z;
  stop_index : Z;
  test_case_dir : string;
  single_file : option string;
  zip_file : option string
}.

(** [HTTPReplyTestServer.__init__] *)
Definition init : HTTPReplyTestServer := {|
  port := 8000;
  close_delay := 0;
  start_index := 0;
  stop_index := Py.maxsize;
  test_case_dir := "testcases";
  single_file := None;
  zip_file := None
|}.

(** What a path holds.  A [File] is a readable file that is not a zip
    archive.  A [Zip] is a valid archive: its raw bytes and its members in
    [namelist()] order, each with the result of reading it ([None] when
    [open] or [read] raises).  A [Dir] lists its children by name, each with
    the result of [open(child, 'rb').read()] ([None] when that raises, as
    for a subdirectory). *)
Inductive node :=
| File (content : bytes)
| Zip (raw : bytes) (members : list (string * option bytes))
| Dir (children : list (string * option bytes)).

Definition filesystem := string -> option node.

(** [Path(p).exists()] *)
Definition exists_ (fs : filesystem) (p : string) : bool :=
  match fs p with
  | Some _ => true
  | None => false
  end.

(** [open(p, 'rb').read()]; [None] stands for any exception. *)
Definition read_file (fs : filesystem) (p : string) : option bytes :=
  match fs p with
  | Some (File content) => Some content
  | Some (Zip raw _) => Some raw
  | Some (Dir _) => None
  | None => None
  end.

Inductive zip_open :=
| ZipOk (members : list (string * option bytes))
| BadZipFile
| ZipError.

(** [zipfile.ZipFile(p, 'r')]: [BadZipFile] for a file that is not an
    archive, another exception for a missing path or a directory. *)
Definition open_zip (fs : filesystem) (p : string) : zip_open :=
  match fs p with
  | Some (Zip _ members) => ZipOk members
  | Some (File _) => BadZipFile
  | Some (Dir _) => ZipError
  | None => ZipError
  end.

(** [zip_ref.namelist()] *)
Definition namelist (members : list (string * option bytes)) : list string :=
  map fst members.

(** [ZipFile.getinfo]: of several members with one name the last is kept. *)
Fixpoint find_member (members : list (string * option bytes)) (name : string)
  : option (option bytes) :=
  match members with
  | [] => None
  | (n, d) :: more =>
      match find_member more name with
      | Some r => Some r
      | None => if (n =? name)%string then Some d else None
      end
  end.

(** [zip_ref.open(name).read()]; [None] stands for any exception. *)
Definition zip_read (members : list (string * option bytes)) (name : string)
  : option bytes :=
  match find_member members name with
  | Some (Some data) => Some data
  | _ => None
  end.

(** Behaviour of an accepted connection: what [recv(1024)] returns ([None]
    when it raises), whether [sendall] and [close] succeed, and whether a
    call to [time.sleep] made while the connection is held returns (below
    the bound of [Py.sleep_overflows] the platform may still refuse the
    delay, as when the deadline overflows its clock). *)
Record client := {
  request : option bytes;
  send_ok : bool;
  close_ok : bool;
  sleep_ok : bool
}.

(** Outcome of one call to [server_socket.accept()].  [Cancelled] is SIGINT
    arriving during the call: the installed [signal_handler] prints and
    raises [SystemExit(0)], which no handler in the script catches. *)
Inductive accept_result :=
| Timeout
| AcceptFails
| Cancelled
| Connection (c : client).

Record world := {
  bind_ok : bool;
  fs : filesystem
}.

(** ** Observable behaviour *)

Inductive failure :=
| BindFailed
| AcceptFailed
| ReadFailed
| SendFailed
| CloseFailed
| SleepFailed
| FileFailed (path : string)
| MemberFailed (name : string)
| ZipFailed (path : string).

(** Lines written by [print]. *)
Inductive message :=
| ServerStarted (p : Z)
| Listening (p : Z)
| WaitingForConnect
| Dot
| ConnectionFrom
| ConnectionNumber (n : nat)
| ReceivedRequest (req : bytes)
| Injecting (index : Z) (size : nat)
| SentResponse
| ReadingFile (path : string)
| FoundZipFile (path : string)
| NoValidTestCasesInZip (start stop : Z)
| FoundTestCases (n : nat)
| WarnNotAZip (path : string)
| WarnNoDirectory (dir : string)
| NoTestCasesAvailable
| ServerWaiting
| NoTestCasesInRange (start stop : Z)
| NeitherFound (zip dir : string)
| ShuttingDown
| Error (f : failure).

(** Steps of a run that the outside can observe, in order. *)
Inductive io :=
| Print (m : message)
| Accept (r : accept_result)
| Recv (r : option bytes)
| Sendall (data : bytes) (ok : bool)
| Sleep (ms : Z)
| Close (ok : bool)
| CloseServer.

(** How a call ends: it returns, [SystemExit] propagates, an exception
    propagates uncaught, or the call is still blocked in [accept] when the
    script of accept outcomes is used up. *)
Inductive outcome :=
| Returned
| Exited (code : Z)
| Crashed
| Waiting.

(** Trace, outcome and the accept outcomes not yet consumed. *)
Definition result : Type := list io * outcome * list accept_result.

Definition trace (r : result) : list io := fst (fst r).
Definition ending (r : result) : outcome := snd (fst r).
Definition unread (r : result) : list accept_result := snd r.

Definition emit (t : list io) (r : result) : result :=
  (t ++ trace r, ending r, unread r).

(** Sequencing: the continuation runs only if the first call returned. *)
Definition and_then (r : result) (k : list accept_result -> result) : result :=
  match ending r with
  | Returned => emit (trace r) (k (unread r))
  | _ => r
  end.

Notation "r ';;' k" := (and_then r k) (at level 61, left associativity).

Definition say (m : message) (evs : list accept_result) : result :=
  ([Print m], Returned, evs).

Definition when (b : bool) (t : list io) : list io := if b then t else [].

Definition is_empty {A : Type} (l : list A) : bool :=
  match l with
  | [] => true
  | _ :: _ => false
  end.

(** ** The connection loop *)

Section Server.

Variable self : HTTPReplyTestServer.

(** [time.sleep(self.close_delay / 1000)] raises: the delay is too large
    for any clock, or the platform refuses it. *)
Definition pause_fails (c : client) : bool :=
  Py.sleep_overflows (close_delay self) || negb (sleep_ok c).

(** What [inject] does with an accepted connection whose request was read:
    log, send the payload, wait, close.  Failures of [sendall] and [close]
    are printed and otherwise ignored.  The pause is not guarded: when it
    raises, the exception reaches the outer handler, which prints it and
    returns, and the connection is not closed. *)
Definition deliver (index : Z) (data : bytes) (c : client) (req : bytes)
  : list io :=
  when (negb (is_empty req)) [Print (ReceivedRequest req)]
  ++ [Print (Injecting index (List.length data)); Sendall data (send_ok c)]
  ++ when (negb (send_ok c)) [Print (Error SendFailed)]
  ++ (if (0 <? close_delay self) && pause_fails c
      then [Print (Error SleepFailed)]
      else when (0 <? close_delay self) [Sleep (close_delay self)]
           ++ [Close (close_ok c)]
           ++ when (negb (close_ok c)) [Print (Error CloseFailed)]).

(** The [while True] loop of [inject].  A failed [recv] closes the
    connection and waits for another one; that [close] is not guarded, so
    when it raises the exception reaches the outer handler, which prints it
    and returns. *)
Fixpoint inject_loop (index : Z) (data : bytes) (dot_counter : nat)
  (evs : list accept_result) : result :=
  match evs with
  | [] => ([], Waiting, [])
  | r :: evs' =>
      match r with
      | Connection c =>
          match request c with
          | Some req =>
              ([Accept r; Print ConnectionFrom; Recv (Some req)]
               ++ deliver index data c req, Returned, evs')
          | None =>
              if close_ok c
              then emit [Accept r; Print ConnectionFrom; Recv None;
                         Print (Error ReadFailed); Close true]
                        (inject_loop index data dot_counter evs')
              else ([Accept r; Print ConnectionFrom; Recv None;
                     Print (Error ReadFailed); Close false;
                     Print (Error CloseFailed)], Returned, evs')
          end
      | Timeout =>
          emit (Accept r :: when (Nat.even (S dot_counter)) [Print Dot])
               (inject_loop index data (S dot_counter) evs')
      | Cancelled => ([Accept r; Print ShuttingDown], Exited 0, evs')
      | AcceptFails => ([Accept r; Print (Error AcceptFailed)], Returned, evs')
      end
  end.

Definition inject (index : Z) (data : bytes) (evs : list accept_result)
  : result :=
  emit [Print WaitingForConnect] (inject_loop index data 0%nat evs).

Definition crlf : string := String "013" (String "010" EmptyString).

(** The literal [response] of [serve_forever]. *)
Definition response : bytes :=
  list_byte_of_string
    ("HTTP/1.1 200 OK" ++ crlf ++ "Content-Type: text/plain" ++ crlf
     ++ "Content-Length: 13" ++ crlf ++ crlf ++ "Hello, World!")%string.

(** What [serve_forever] does with a connection whose request was read. *)
Definition answer (c : client) (req : bytes) : list io :=
  when (negb (is_empty req)) [Print (ReceivedRequest req)]
  ++ [Sendall response (send_ok c);
      Print (if send_ok c then SentResponse else Error SendFailed);
      Close (close_ok c)]
  ++ when (negb (close_ok c)) [Print (Error CloseFailed)].

(** The [while True] loop of [serve_forever].  After a failed [recv] the
    loop continues without closing the connection. *)
Fixpoint serve_loop (request_count : nat) (evs : list accept_result)
  : result :=
  match evs with
  | [] => ([], Waiting, [])
  | r :: evs' =>
      match r with
      | Connection c =>
          let request_count := S request_count in
          match request c with
          | Some req =>
              emit ([Accept r; Print (ConnectionNumber request_count);
                     Recv (Some req)] ++ answer c req)
                   (serve_loop request_count evs')
          | None =>
              emit [Accept r; Print (ConnectionNumber request_count);
                    Recv None; Print (Error ReadFailed)]
                   (serve_loop request_count evs')
          end
      | Timeout => emit [Accept r] (serve_loop request_count evs')
      | Cancelled => ([Accept r; Print ShuttingDown], Exited 0, evs')
      | AcceptFails =>
          emit [Accept r; Print (Error AcceptFailed)]
               (serve_loop request_count evs')
      end
  end.

Definition serve_forever (evs : list accept_result) : result :=
  emit [Print ServerWaiting] (serve_loop 0%nat evs).

(** ** Resolution of the test cases *)

Variable w : world.

Definition parse_single_file (evs : list accept_result) : result :=
  let path := match single_file self with Some p => p | None => ""%string end in
  say (ReadingFile path) evs ;;
  match read_file (fs w) path with
  | Some data => inject 0 data
  | None => say (Error (FileFailed path))
  end.

Definition in_range (index : Z) : bool :=
  (start_index self <=? index) && (index <=? stop_index self).

(** The filter over [namelist()]: members whose base name is not empty,
    parses as an integer and lies in the range, in archive order. *)
Fixpoint zip_test_cases (file_list : list string) : list (Z * string) :=
  match file_list with
  | [] => []
  | file_name :: more =>
      let base_name := Py.basename file_name in
      if (base_name =? "")%string then zip_test_cases more
      else
        match Py.int base_name with
        | Some index =>
            if in_range index
            then (index, file_name) :: zip_test_cases more
            else zip_test_cases more
        | None => zip_test_cases more
        end
  end.

(** The [for index, file_path in test_cases] loop over a zip archive. *)
Fixpoint inject_members (members : list (string * option bytes))
  (test_cases : list (Z * string)) (evs : list accept_result) : result :=
  match test_cases with
  | [] => ([], Returned, evs)
  | (index, file_path) :: more =>
      match zip_read members file_path with
      | Some data => inject index data evs ;; inject_members members more
      | None =>
          say (Error (MemberFailed file_path)) evs ;;
          inject_members members more
      end
  end.

(** Order of the [Path] objects of one directory: by name. *)
Definition path_leb (a b : string * option bytes) : bool :=
  String.leb (fst a) (fst b).

(** The filter over [sorted(test_case_path.iterdir())]: children whose name
    parses as an integer in the range, in the order of the iteration. *)
Fixpoint dir_test_cases (files : list (string * option bytes))
  : list (Z * (string * option bytes)) :=
  match files with
  | [] => []
  | file :: more =>
      match Py.int (fst file) with
      | Some index =>
          if in_range index
          then (index, file) :: dir_test_cases more
          else dir_test_cases more
      | None => dir_test_cases more
      end
  end.

(** The [for index, file_path in test_cases] loop over a directory. *)
Fixpoint inject_files (test_cases : list (Z * (string * option bytes)))
  (evs : list accept_result) : result :=
  match test_cases with
  | [] => ([], Returned, evs)
  | (index, file_path) :: more =>
      match snd file_path with
      | Some data => inject index data evs ;; inject_files more
      | None =>
          say (Error (FileFailed (fst file_path))) evs ;; inject_files more
      end
  end.

(** The directory part of [parse_test_cases].  Listing a path that exists
    but is not a directory raises out of the method. *)
Definition parse_directory (evs : list accept_result) : result :=
  match fs w (test_case_dir self) with
  | None =>
      ([Print (WarnNoDirectory (test_case_dir self));
        Print NoTestCasesAvailable], Returned, evs)
  | Some (Dir children) =>
      inject_files (dir_test_cases (Py.sorted path_leb children)) evs
  | Some _ => ([], Crashed, evs)
  end.

Definition auto_zip_path : string := (test_case_dir self ++ ".zip")%string.

(** The zip part of [parse_test_cases], for the archive at [zip_path]. *)
Definition parse_zip (zip_path : string) (evs : list accept_result) : result :=
  match open_zip (fs w) zip_path with
  | ZipOk members =>
      let test_cases := Py.sorted Py.tuple_leb (zip_test_cases (namelist members)) in
      if is_empty test_cases
      then say (NoValidTestCasesInZip (start_index self) (stop_index self)) evs
      else
        say (FoundTestCases (List.length test_cases)) evs ;;
        inject_members members test_cases
  | BadZipFile => say (WarnNotAZip zip_path) evs ;; parse_directory
  | ZipError => say (Error (ZipFailed zip_path)) evs ;; parse_directory
  end.

(** The local [zip_path] of [parse_test_cases]: the explicit archive, else
    the archive named after the directory when that path exists. *)
Definition zip_path : option string :=
  if Py.truthy (zip_file self) then zip_file self
  else if exists_ (fs w) auto_zip_path then Some auto_zip_path
  else None.

Definition parse_test_cases (evs : list accept_result) : result :=
  if Py.truthy (single_file self) then parse_single_file evs
  else
    (when (negb (Py.truthy (zip_file self)) && exists_ (fs w) auto_zip_path)
          [Print (FoundZipFile auto_zip_path)], Returned, evs) ;;
    match zip_path with
    | Some p => parse_zip p
    | None => parse_directory
    end.

(** ** The run *)

(** The zip check of [run]: is there a member with a numeric base name in
    the range?  Any exception counts as no. *)
Definition zip_has_test_cases (zip_path : string) : bool :=
  match open_zip (fs w) zip_path with
  | ZipOk members =>
      existsb (fun file_name =>
                 let base_name := Py.basename file_name in
                 negb (base_name =? "")%string &&
                 match Py.int base_name with
                 | Some index => in_range index
                 | None => false
                 end)
              (namelist members)
  | _ => false
  end.

(** The directory check of [run]; [None] when listing the path raises. *)
Definition dir_has_test_cases : option bool :=
  match fs w (test_case_dir self) with
  | Some (Dir children) =>
      Some (existsb (fun file =>
                       match Py.int (fst file) with
                       | Some index => in_range index
                       | None => false
                       end)
                    (Py.sorted path_leb children))
  | Some _ => None
  | None => Some false
  end.

(** The value of [has_test_cases] computed by [run] when [single_file] is
    not set; [None] when the directory check raises. *)
Definition has_test_cases : option bool :=
  let zip_path := Py.or_else (zip_file self) auto_zip_path in
  let zip_exists := exists_ (fs w) zip_path in
  let found := zip_exists && zip_has_test_cases zip_path in
  if negb found && exists_ (fs w) (test_case_dir self)
  then dir_has_test_cases
  else Some found.

(** [finish], run by the [finally] clause once the body is left. *)
Definition finish (r : result) : result :=
  match ending r with
  | Waiting => r
  | o => (trace r ++ [CloseServer], o, unread r)
  end.

(** The body of [run] after a successful [prepare]. *)
Definition run_body (evs : list accept_result) : result :=
  if Py.truthy (single_file self) then parse_single_file evs
  else
    match has_test_cases with
    | None => ([], Crashed, evs)
    | Some true => parse_test_cases evs ;; serve_forever
    | Some false =>
        let zip_path := Py.or_else (zip_file self) auto_zip_path in
        (Print (NoTestCasesInRange (start_index self) (stop_index self))
         :: when (negb (exists_ (fs w) zip_path)
                  && negb (exists_ (fs w) (test_case_dir self)))
                 [Print (NeitherFound zip_path (test_case_dir self))],
         Returned, evs) ;;
        serve_forever
    end.

Definition run (evs : list accept_result) : result :=
  finish
    (if bind_ok w
     then
       ([Print (ServerStarted (port self)); Print (Listening (port self))],
        Returned, evs) ;;
       run_body
     else ([Print (Error BindFailed)], Exited (-1), evs)).

End Server.

(** ** Command line *)

(** The namespace returned by [parser.parse_args()]. *)
Record args := {
  arg_port : Z;
  arg_closedelay : Z;
  arg_single : option Z;
  arg_start : Z;
  arg_stop : Z;
  arg_file : option string;
  arg_testdir : string;
  arg_zip : option string
}.

(** The server object built by [main]. *)
Definition configure (a : args) : HTTPReplyTestServer := {|
  port := arg_port a;
  close_delay := arg_closedelay a;
  start_index := match arg_single a with Some n => n | None => arg_start a end;
  stop_index := match arg_single a with Some n => n | None => arg_stop a end;
  test_case_dir := arg_testdir a;
  single_file := arg_file a;
  zip_file := arg_zip a
|}.

Definition main (a : args) (w : world) (evs : list accept_result) : result :=
  run (configure a) w evs.

(** The parser's defaults. *)
Definition default_args : args := {|
  arg_port := 8000;
  arg_closedelay := 0;
  arg_single := None;
  arg_start := 0;
  arg_stop := Py.maxsize;
  arg_file := None;
  arg_testdir := "testcases";
  arg_zip := None
|}.

(** ** Observations on traces *)

(** Payloads passed to [sendall], in order. *)
Fixpoint payloads (t : list io) : list bytes :=
  match t with
  | [] => []
  | Sendall data _ :: t' => data :: payloads t'
  | _ :: t' => payloads t'
  end.

(** Indices announced by "Injecting testcase #index", in order. *)
Fixpoint injected (t : list io) : list Z :=
  match t with
  | [] => []
  | Print (Injecting index _) :: t' => index :: injected t'
  | _ :: t' => injected t'
  end.

(** A socket operation that failed. *)
Definition is_fault (e : io) : bool :=
  match e with
  | Accept AcceptFails => true
  | Recv None => true
  | Sendall _ false => true
  | Close false => true
  | _ => false
  end.

(** [next] is the printed report of the failed operation [e]. *)
Definition reports (e next : io) : bool :=
  match e, next with
  | Accept AcceptFails, Print (Error AcceptFailed) => true
  | Recv None, Print (Error ReadFailed) => true
  | Sendall _ false, Print (Error SendFailed) => true
  | Close false, Print (Error CloseFailed) => true
  | _, _ => false
  end.

(** Every failed socket operation is directly followed by its report. *)
Fixpoint faults_logged (t : list io) : bool :=
  match t with
  | [] => true
  | e :: t' =>
      if is_fault e
      then match t' with
           | next :: _ => reports e next && faults_logged t'
           | [] => false
           end
      else faults_logged t'
  end.

Definition is_cancel (r : accept_result) : bool :=
  match r with
  | Cancelled => true
  | _ => false
  end.

(** The script never cancels. *)
Definition calm (evs : list accept_result) : bool :=
  forallb (fun r => negb (is_cancel r)) evs.

(** A call that was not stopped: it returned, leaving a script that never
    cancels, or it consumed the whole script and is waiting for more. *)
Definition carries_on (r : result) : Prop :=
  (ending r = Returned /\ calm (unread r) = true)
  \/ (ending r = Waiting /\ unread r = []).

(** The test directory is absent or can be listed. *)
Definition listable (self : HTTPReplyTestServer) (w : world) : Prop :=
  match fs w (test_case_dir self) with
  | Some (Dir _) | None => True
  | Some _ => False
  end.

(** A connection that sends a request and accepts the reply. *)
Definition good : client :=
  {| request := Some (list_byte_of_string "GET / HTTP/1.1");
     send_ok := true;
     close_ok := true;
     sleep_ok := true |}.

(** Connections answered by [serve_forever]: those accepted before the
    first cancellation whose request could be read. *)
Fixpoint answered (evs : list accept_result) : nat :=
  match evs with
  | [] => 0
  | Cancelled :: _ => 0
  | Connection c :: evs' =>
      match request c with
      | Some _ => S (answered evs')
      | None => answered evs'
      end
  | _ :: evs' => answered evs'
  end.

(** A file system given by a finite table. *)
Fixpoint table (l : list (string * node)) : filesystem :=
  fun p =>
    match l with
    | [] => None
    | (q, n) :: l' => if (p =? q)%string then Some n else table l' p
    end.

Definition with_single (o : option Z) (a : args) : args := {|
  arg_port := arg_port a;
  arg_closedelay := arg_closedelay a;
  arg_single := o;
  arg_start := arg_start a;
  arg_stop := arg_stop a;
  arg_file := arg_file a;
  arg_testdir := arg_testdir a;
  arg_zip := arg_zip a
|}.

Definition with_range (start stop : Z) (a : args) : args := {|
  arg_port := arg_port a;
  arg_closedelay := arg_closedelay a;
  arg_single := arg_single a;
  arg_start := start;
  arg_stop := stop;
  arg_file := arg_file a;
  arg_testdir := arg_testdir a;
  arg_zip := arg_zip a
|}.

Definition with_file (path : string) (a : args) : args := {|
  arg_port := arg_port a;
  arg_closedelay := arg_closedelay a;
  arg_single := arg_single a;
  arg_start := arg_start a;
  arg_stop := arg_stop a;
  arg_file := Some path;
  arg_testdir := arg_testdir a;
  arg_zip := arg_zip a
|}.

Definition text (s : string) : bytes := list_byte_of_string s.

(** The entry named by a printed report about a zip member or a file. *)
Definition entry_error (e : io) : option string :=
  match e with
  | Print (Error (MemberFailed n)) => Some n
  | Print (Error (FileFailed n)) => Some n
  | _ => None
  end.

(** A printed report about an entry names an entry with a numeric name. *)
Definition numeric_entry (e : io) : Prop :=
  match e with
  | Print (Error (MemberFailed n)) => Py.int (Py.basename n) <> None
  | Print (Error (FileFailed n)) => Py.int n <> None
  | _ => True
  end.

(** Worlds used as examples. *)
Definition payload_A : bytes := text "A".
Definition payload_B : bytes := text "B".
Definition payload_C : bytes := text "C".
Definition payload_D : bytes := text "D".
Definition payload_X : bytes := text "X".
Definition payload_Z : bytes := text "Z".

(** [testcases.zip] holds the member "100", [testcases/] the file "0". *)
Definition zip_beside_directory : world := {|
  bind_ok := true;
  fs := table [("testcases.zip"%string, Zip [] [("100"%string, Some payload_Z)]);
               ("testcases"%string, Dir [("0"%string, Some payload_A)])]
|}.

(** [testcases/] holds the files "0", "1", "2" and "10"; no archive. *)
Definition four_files : list (string * option bytes) :=
  [("0"%string, Some payload_A); ("1"%string, Some payload_B);
   ("2"%string, Some payload_C); ("10"%string, Some payload_D)].

Definition directory_of_four : world := {|
  bind_ok := true;
  fs := table [("testcases"%string, Dir four_files)]
|}.

(** [foo.bin] holds the bytes "X". *)
Definition only_foo : world := {|
  bind_ok := true;
  fs := table [("foo.bin"%string, File payload_X)]
|}.

(** [-start 0 -stop 9] *)
Definition first_ten : args := with_range 0 9 default_args.

(** [-start -5 -stop 20] *)
Definition from_minus_five : args := with_range (-5) 20 default_args.

(** Names that Python's [int] accepts beyond plain digit strings. *)
Definition odd_names : list (string * option bytes) :=
  [("-3"%string, Some payload_A); (" 7 "%string, Some payload_B);
   ("1_0"%string, Some payload_C); ("x1"%string, Some payload_D)].

(** [-file foo.bin] *)
Definition file_foo : args := with_file "foo.bin" default_args.

Definition CRLF : bytes := [x0d; x0a].

(** A connection whose request cannot be read. *)
Definition mute : client :=
  {| request := None; send_ok := true; close_ok := true; sleep_ok := true |}.

(** A connection that sends nothing and on which writing and closing fail. *)
Definition faulty : client :=
  {| request := Some []; send_ok := false; close_ok := false;
     sleep_ok := true |}.

(** A script with every kind of failure and no cancellation. *)
Definition rough_script : list accept_result :=
  [AcceptFails; Connection mute; Connection faulty; Timeout; Connection good;
   Connection {| request := None; send_ok := true; close_ok := false;
                 sleep_ok := true |};
   AcceptFails; Connection mute; Connection faulty].


(** The same directory as [directory_of_four], listed in reverse. *)
Definition directory_of_four_reversed : world := {|
  bind_ok := true;
  fs := table [("testcases"%string, Dir (rev four_files))]
|}.

(** ** Further observations *)

(** A printed line other than the announcement of an injection. *)
Definition is_notice (e : io) : bool :=
  match e with
  | Print (Injecting _ _) => false
  | Print _ => true
  | _ => false
  end.

(** The path read by [parse_single_file]. *)
Definition single_path (self : HTTPReplyTestServer) : string :=
  match single_file self with
  | Some p => p
  | None => ""%string
  end.

(** A test case that the sources of a run hold: the single file as case 0,
    a member of the chosen archive, or a child of the test directory, the
    last two under a name that parses to an index in the range. *)
Definition offered (self : HTTPReplyTestServer) (w : world)
  (index : Z) (data : bytes) : Prop :=
  (Py.truthy (single_file self) = true
   /\ index = 0 /\ read_file (fs w) (single_path self) = Some data)
  \/ (exists p members n,
         Py.truthy (single_file self) = false
         /\ zip_path self w = Some p /\ open_zip (fs w) p = ZipOk members
         /\ In n (namelist members)
         /\ Py.int (Py.basename n) = Some index
         /\ in_range self index = true
         /\ zip_read members n = Some data)
  \/ (exists children n,
         Py.truthy (single_file self) = false
         /\ fs w (test_case_dir self) = Some (Dir children)
         /\ In (n, Some data) children
         /\ Py.int n = Some index
         /\ in_range self index = true).

(** What a run may write or announce: the default response or a test case
    that its sources hold, announced with its index and size. *)
Definition legitimate (self : HTTPReplyTestServer) (w : world) (e : io)
  : Prop :=
  match e with
  | Sendall data _ => data = response \/ exists index, offered self w index data
  | Print (Injecting index size) =>
      exists data, offered self w index data /\ size = List.length data
  | _ => True
  end.

(** Durations of the pauses, in order. *)
Fixpoint sleeps (t : list io) : list Z :=
  match t with
  | [] => []
  | Sleep ms :: t' => ms :: sleeps t'
  | _ :: t' => sleeps t'
  end.

(** Numbers printed by "Connection #n", in order. *)
Fixpoint connection_numbers (t : list io) : list nat :=
  match t with
  | [] => []
  | Print (ConnectionNumber n) :: t' => n :: connection_numbers t'
  | _ :: t' => connection_numbers t'
  end.

(** Connections accepted before the first cancellation. *)
Fixpoint accepted (evs : list accept_result) : nat :=
  match evs with
  | [] => 0
  | Cancelled :: _ => 0
  | Connection _ :: evs' => S (accepted evs')
  | _ :: evs' => accepted evs'
  end.

(** A connection whose request can be read. *)
Definition readable (c : client) : Prop := request c <> None.

(** Contents of the directory cases that can be read, in order. *)
Definition contents (test_cases : list (Z * (string * option bytes)))
  : list bytes :=
  flat_map (fun c => match snd (snd c) with
                     | Some data => [data]
                     | None => []
                     end) test_cases.

(** Contents of the zip cases that can be read, in order. *)
Definition zip_contents (members : list (string * option bytes))
  (test_cases : list (Z * string)) : list bytes :=
  flat_map (fun c => match zip_read members (snd c) with
                     | Some data => [data]
                     | None => []
                     end) test_cases.

(** The paths a run looks at: the single file alone when it is set; else
    the test directory, and the explicit archive when it is set, else the
    archive named after the directory. *)
Definition relevant_paths (self : HTTPReplyTestServer) : list string :=
  if Py.truthy (single_file self) then [single_path self]
  else [Py.or_else (zip_file self) (auto_zip_path self); test_case_dir self].

(** The script cancels for the first time after [pre], leaving [rest]. *)
Definition cancelled_after (pre rest evs : list accept_result) : Prop :=
  calm pre = true /\ evs = pre ++ Cancelled :: rest.

(** An archive with two members of one name. *)
Definition twice_seven : world := {|
  bind_ok := true;
  fs := table [("testcases.zip"%string,
                Zip [] [("7"%string, Some payload_A);
                        ("3"%string, Some payload_C);
                        ("7"%string, Some payload_B)])]
|}.

(** Nothing on disk. *)
Definition empty_disk : world := {| bind_ok := true; fs := table [] |}.

(** [-closedelay 200] *)
Definition delayed : HTTPReplyTestServer := {|
  port := 8000;
  close_delay := 200;
  start_index := 0;
  stop_index := Py.maxsize;
  test_case_dir := "testcases";
  single_file := None;
  zip_file := None
|}.

(** What [inject] passes over while it waits: a timeout, or a connection
    whose request cannot be read and which closes. *)
Definition passed_over (r : accept_result) : bool :=
  match r with
  | Timeout => true
  | Connection c =>
      match request c with
      | None => close_ok c
      | Some _ => false
      end
  | _ => false
  end.

(** [-single 2] *)
Definition single_two : args := with_single (Some 2) default_args.

(** [-start 5 -stop 1] *)
Definition inverted : args := with_range 5 1 default_args.

(** Every [sendall] comes after the request of the connection accepted
    last has been read, and at most once for that connection.  [ready]
    tells that a request was read and no payload written since. *)
Fixpoint orderly (ready : bool) (t : list io) : bool :=
  match t with
  | [] => true
  | Accept _ :: t' => orderly false t'
  | Recv (Some _) :: t' => orderly true t'
  | Recv None :: t' => orderly false t'
  | Sendall _ _ :: t' => ready && orderly false t'
  | _ :: t' => orderly ready t'
  end.

(** Every connection of the script lets [time.sleep] return. *)
Definition steady_clock (evs : list accept_result) : bool :=
  forallb (fun r => match r with
                    | Connection c => sleep_ok c
                    | _ => true
                    end) evs.



(** Outcomes of [accept] that a trace records, in order. *)
Fixpoint accepts (t : list io) : list accept_result :=
  match t with
  | [] => []
  | Accept r :: t' => r :: accepts t'
  | _ :: t' => accepts t'
  end.

Definition same_request (a b : option bytes) : bool :=
  match a, b with
  | None, None => true
  | Some x, Some y => if list_eq_dec Byte.byte_eq_dec x y then true else false
  | _, _ => false
  end.

(** Where a trace stands with the connection accepted last: none is open;
    it is accepted and its request not read yet; its request was read and
    nothing written yet; its request could not be read; a payload was
    written to it. *)
Inductive stage :=
| Idle
| Accepted (c : client)
| Read (c : client)
| Failed (c : client)
| Written (c : client).

(** Nothing is owed to the connection accepted last. *)
Definition settled (st : stage) : bool :=
  match st with
  | Accepted _ | Read _ => false
  | _ => true
  end.

(** One step of a trace.  [accept] and the closing of the listening socket
    come only when nothing is owed; [recv] is the first operation on an
    accepted connection and gives what that connection sends; a payload is
    written only after a request was read, once, with the outcome that the
    connection gives to [sendall]; the pause comes only after the payload;
    [close] comes after the payload or after a failed [recv], with the
    outcome that the connection gives to it. *)
Definition advance (st : stage) (e : io) : option stage :=
  match e with
  | Print _ => Some st
  | CloseServer => if settled st then Some st else None
  | Accept r =>
      if settled st
      then Some match r with
                | Connection c => Accepted c
                | _ => Idle
                end
      else None
  | Recv r =>
      match st with
      | Accepted c =>
          if same_request r (request c)
          then Some match r with
                    | Some _ => Read c
                    | None => Failed c
                    end
          else None
      | _ => None
      end
  | Sendall _ ok =>
      match st with
      | Read c => if Bool.eqb ok (send_ok c) then Some (Written c) else None
      | _ => None
      end
  | Sleep _ =>
      match st with
      | Written c => Some st
      | _ => None
      end
  | Close ok =>
      match st with
      | Written c | Failed c =>
          if Bool.eqb ok (close_ok c) then Some Idle else None
      | _ => None
      end
  end.

Fixpoint walk (st : stage) (t : list io) : option stage :=
  match t with
  | [] => Some st
  | e :: t' =>
      match advance st e with
      | Some st' => walk st' t'
      | None => None
      end
  end.

(** The socket operations of a trace are those of the connections that it
    accepts, each read and, when its request could be read, written to. *)
Definition protocol (t : list io) : bool :=
  match walk Idle t with
  | Some st => settled st
  | None => false
  end.

(** What [inject] sends when [e] is the first outcome that it does not pass
    over. *)
Definition delivered_to (data : bytes) (e : accept_result) : list bytes :=
  match e with
  | Connection c =>
      match request c with
      | Some _ => [data]
      | None => []
      end
  | _ => []
  end.

(** A script of clients: each connection comes after outcomes of [accept]
    that [inject] passes over. *)
Definition arrivals (segs : list (list accept_result * client))
  : list accept_result :=
  flat_map (fun seg => fst seg ++ [Connection (snd seg)]) segs.

(** Each of these connections can be read, and what comes before it is
    passed over. *)
Definition patient (segs : list (list accept_result * client)) : Prop :=
  Forall (fun seg => forallb passed_over (fst seg) = true /\ readable (snd seg))
         segs.

(** * Properties *)

(** ** The built-ins on small inputs *)

Example int_plain : Py.int "42" = Some 42.
Proof. reflexivity. Qed.

Example int_leading_zeros : Py.int "007" = Some 7.
Proof. reflexivity. Qed.

Example int_rejects :
  map Py.int ["" ; "-" ; "+ 1" ; "_1" ; "1_" ; "1__0" ; "5.txt" ; "0x10"]%string
  = [None; None; None; None; None; None; None; None].
Proof. reflexivity. Qed.

(** Characters around the number: the separators 28 to 31 are no white
    space for [int]; NEL (133) and the no-break space (160) are. *)
Example int_white_space :
  map (fun n => Py.int (String (ascii_of_nat n) "5"))
      [9; 11; 13; 28; 31; 32; 133; 160; 161]%nat
  = [Some 5; Some 5; Some 5; None; None; Some 5; Some 5; Some 5; None]
  /\ map (fun n => Py.int ("5" ++ String (ascii_of_nat n) ""))
         [9; 28; 32; 133; 160; 0]%nat
     = [Some 5; None; Some 5; Some 5; Some 5; None].
Proof. split; reflexivity. Qed.

Example basename_examples :
  map Py.basename ["a/b/12" ; "a/b/" ; "12"]%string = ["12" ; "" ; "12"]%string.
Proof. reflexivity. Qed.

(** ** Sorting *)

Section SortFacts.
Context {A : Type} (leb : A -> A -> bool).

Lemma insert_perm (x : A) (l : list A) :
  Permutation (Py.insert leb x l) (x :: l).
Proof.
  induction l as [|y r IH]; simpl.
  - apply Permutation_refl.
  - destruct (leb x y).
    + apply Permutation_refl.
    + eapply perm_trans; [apply perm_skip, IH | apply perm_swap].
Qed.

Lemma sorted_perm (l : list A) : Permutation (Py.sorted leb l) l.
Proof.
  induction l as [|x r IH]; simpl.
  - constructor.
  - eapply perm_trans; [apply insert_perm | apply perm_skip, IH].
Qed.

Lemma sorted_In (l : list A) (x : A) : In x (Py.sorted leb l) <-> In x l.
Proof.
  split; apply Permutation_in;
    [apply sorted_perm | apply Permutation_sym, sorted_perm].
Qed.

Lemma sorted_length (l : list A) :
  List.length (Py.sorted leb l) = List.length l.
Proof. apply Permutation_length, sorted_perm. Qed.

(** When [leb] decides an order that a key [f] respects, the output is
    ascending in the key. *)
Variable f : A -> Z.
Hypothesis leb_true : forall a b, leb a b = true -> f a <= f b.
Hypothesis leb_false : forall a b, leb a b = false -> f b <= f a.

Let ascending (a b : A) : Prop := f a <= f b.

Lemma insert_hd (x y : A) (l : list A) :
  f y <= f x -> HdRel ascending y l -> HdRel ascending y (Py.insert leb x l).
Proof.
  intros Hyx Hhd. destruct l as [|z r]; simpl.
  - constructor. exact Hyx.
  - destruct (leb x z); constructor.
    + exact Hyx.
    + inversion Hhd; assumption.
Qed.

Lemma insert_sorted (x : A) (l : list A) :
  Sorted ascending l -> Sorted ascending (Py.insert leb x l).
Proof.
  induction 1 as [|y r Hs IH Hhd]; simpl.
  - repeat constructor.
  - destruct (leb x y) eqn:E.
    + constructor; [constructor; assumption|].
      constructor. apply leb_true, E.
    + constructor; [exact IH|].
      apply insert_hd; [apply leb_false, E | exact Hhd].
Qed.

Lemma sorted_ascending (l : list A) : Sorted ascending (Py.sorted leb l).
Proof.
  induction l as [|x r IH]; simpl; [constructor | apply insert_sorted, IH].
Qed.

Lemma sorted_keys (l : list A) :
  StronglySorted Z.le (map f (Py.sorted leb l)).
Proof.
  assert (H : StronglySorted ascending (Py.sorted leb l)).
  { apply Sorted_StronglySorted; [|apply sorted_ascending].
    intros a b c; unfold ascending; lia. }
  induction H as [|a l' Hs IH Hall]; simpl; constructor.
  - exact IH.
  - rewrite Forall_map. exact Hall.
Qed.
End SortFacts.

Lemma tuple_leb_true (a b : Z * string) :
  Py.tuple_leb a b = true -> fst a <= fst b.
Proof.
  unfold Py.tuple_leb. intros H.
  apply orb_true_iff in H as [H|H].
  - apply Z.ltb_lt in H. lia.
  - apply andb_true_iff in H as [H _]. apply Z.eqb_eq in H. lia.
Qed.

Lemma tuple_leb_false (a b : Z * string) :
  Py.tuple_leb a b = false -> fst b <= fst a.
Proof.
  unfold Py.tuple_leb. intros H.
  apply orb_false_iff in H as [H _]. apply Z.ltb_ge in H. exact H.
Qed.

(** The zip path: whatever the order of the members, the resolved cases are
    ascending by index. *)
Lemma zip_order_ascending (s : HTTPReplyTestServer) (names : list string) :
  StronglySorted Z.le
    (map fst (Py.sorted Py.tuple_leb (zip_test_cases s names))).
Proof.
  apply sorted_keys; [apply tuple_leb_true | apply tuple_leb_false].
Qed.

(** ** Selection by name and range *)

Lemma in_range_iff (s : HTTPReplyTestServer) (i : Z) :
  in_range s i = true <-> start_index s <= i <= stop_index s.
Proof.
  unfold in_range. rewrite andb_true_iff, !Z.leb_le. reflexivity.
Qed.

Lemma int_Some_nonempty (n : string) (i : Z) :
  Py.int n = Some i -> (n =? "")%string = false.
Proof.
  intros H. destruct n; [discriminate H | reflexivity].
Qed.

Lemma zip_test_cases_spec (s : HTTPReplyTestServer) (names : list string)
  (i : Z) (n : string) :
  In (i, n) (zip_test_cases s names) <->
  In n names /\ Py.int (Py.basename n) = Some i /\ in_range s i = true.
Proof.
  induction names as [|m more IH]; simpl.
  - tauto.
  - destruct (Py.basename m =? "")%string eqn:Eb.
    + rewrite IH. split; [tauto|].
      intros [[->|Hin] [Hint Hr]]; [|tauto].
      apply int_Some_nonempty in Hint. congruence.
    + destruct (Py.int (Py.basename m)) as [j|] eqn:Ej.
      * destruct (in_range s j) eqn:Er; simpl; rewrite IH.
        -- split.
           ++ intros [H|H]; [inversion H; subst; tauto | tauto].
           ++ intros [[->|Hin] [Hint Hr]]; [left; congruence | tauto].
        -- split; [tauto|].
           intros [[->|Hin] [Hint Hr]]; [congruence | tauto].
      * rewrite IH. split; [tauto|].
        intros [[->|Hin] [Hint Hr]]; [congruence | tauto].
Qed.

Lemma dir_test_cases_spec (s : HTTPReplyTestServer)
  (files : list (string * option bytes)) (i : Z) (f : string * option bytes) :
  In (i, f) (dir_test_cases s files) <->
  In f files /\ Py.int (fst f) = Some i /\ in_range s i = true.
Proof.
  induction files as [|g more IH]; simpl.
  - tauto.
  - destruct (Py.int (fst g)) as [j|] eqn:Ej.
    + destruct (in_range s j) eqn:Er; simpl; rewrite IH.
      * split.
        -- intros [H|H]; [inversion H; subst; tauto | tauto].
        -- intros [[->|Hin] [Hint Hr]]; [left; congruence | tauto].
      * split; [tauto|].
        intros [[->|Hin] [Hint Hr]]; [congruence | tauto].
    + rewrite IH. split; [tauto|].
      intros [[->|Hin] [Hint Hr]]; [congruence | tauto].
Qed.

(** ** Traces of sequenced calls *)

Lemma trace_emit (t : list io) (r : result) : trace (emit t r) = t ++ trace r.
Proof. reflexivity. Qed.

Lemma ending_emit (t : list io) (r : result) : ending (emit t r) = ending r.
Proof. reflexivity. Qed.

Lemma unread_emit (t : list io) (r : result) : unread (emit t r) = unread r.
Proof. reflexivity. Qed.

Lemma and_then_returned (r : result) (k : list accept_result -> result) :
  ending r = Returned -> r ;; k = emit (trace r) (k (unread r)).
Proof. unfold and_then. intros ->. reflexivity. Qed.

Lemma and_then_stopped (r : result) (k : list accept_result -> result) :
  ending r <> Returned -> r ;; k = r.
Proof. unfold and_then. destruct (ending r); congruence. Qed.

Lemma say_then (m : message) (evs : list accept_result)
  (k : list accept_result -> result) :
  say m evs ;; k = emit [Print m] (k evs).
Proof. reflexivity. Qed.

Lemma Forall_and_then (P : io -> Prop) (r : result)
  (k : list accept_result -> result) :
  Forall P (trace r) -> (forall evs, Forall P (trace (k evs))) ->
  Forall P (trace (r ;; k)).
Proof.
  intros Hr Hk. unfold and_then. destruct (ending r); try exact Hr.
  rewrite trace_emit. apply Forall_app. split; [exact Hr | apply Hk].
Qed.

Lemma Forall_emit (P : io -> Prop) (t : list io) (r : result) :
  Forall P t -> Forall P (trace r) -> Forall P (trace (emit t r)).
Proof. intros Ht Hr. rewrite trace_emit. apply Forall_app. tauto. Qed.

(** ** Reports about entries *)

Lemma Forall_when (P : io -> Prop) (b : bool) (t : list io) :
  Forall P t -> Forall P (when b t).
Proof. destruct b; [trivial | constructor]. Qed.

Ltac each_io :=
  repeat first [apply Forall_nil | apply Forall_when
               | apply Forall_cons; [reflexivity|]].

Lemma deliver_no_entry_error (s : HTTPReplyTestServer) (i : Z) (d : bytes)
  (c : client) (req : bytes) :
  Forall (fun e => entry_error e = None) (deliver s i d c req).
Proof.
  unfold deliver, when.
  destruct (is_empty req), (send_ok c), (close_ok c), (0 <? close_delay s),
           (pause_fails s c);
    simpl; each_io.
Qed.

Lemma inject_no_entry_error (s : HTTPReplyTestServer) (i : Z) (d : bytes)
  (evs : list accept_result) :
  Forall (fun e => entry_error e = None) (trace (inject s i d evs)).
Proof.
  unfold inject. apply Forall_emit; [each_io|].
  generalize 0%nat as k.
  induction evs as [|r evs IH]; intros k; cbn [inject_loop]; [constructor|].
  destruct r as [| | |c].
  - apply Forall_emit; [each_io | apply IH].
  - each_io.
  - each_io.
  - destruct (request c) as [req|].
    + unfold trace; simpl. each_io. apply deliver_no_entry_error.
    + destruct (close_ok c).
      * apply Forall_emit; [each_io | apply IH].
      * each_io.
Qed.

Section EntryReports.
Variable P : io -> Prop.
Hypothesis other_events : forall e, entry_error e = None -> P e.

Lemma inject_other (s : HTTPReplyTestServer) (i : Z) (d : bytes)
  (evs : list accept_result) : Forall P (trace (inject s i d evs)).
Proof.
  eapply Forall_impl; [|apply inject_no_entry_error]. exact other_events.
Qed.

Lemma inject_members_reports (s : HTTPReplyTestServer)
  (members : list (string * option bytes)) (cases : list (Z * string)) :
  Forall (fun c => P (Print (Error (MemberFailed (snd c))))) cases ->
  forall evs, Forall P (trace (inject_members s members cases evs)).
Proof.
  induction 1 as [|[i n] more Hn Hmore IH]; intros evs; simpl.
  - constructor.
  - destruct (zip_read members n).
    + apply Forall_and_then; [apply inject_other | exact IH].
    + apply Forall_and_then; [|exact IH].
      constructor; [exact Hn | constructor].
Qed.

Lemma inject_files_reports (s : HTTPReplyTestServer)
  (cases : list (Z * (string * option bytes))) :
  Forall (fun c => P (Print (Error (FileFailed (fst (snd c)))))) cases ->
  forall evs, Forall P (trace (inject_files s cases evs)).
Proof.
  induction 1 as [|[i [n d]] more Hn Hmore IH]; intros evs; simpl.
  - constructor.
  - destruct d.
    + apply Forall_and_then; [apply inject_other | exact IH].
    + apply Forall_and_then; [|exact IH].
      constructor; [exact Hn | constructor].
Qed.
End EntryReports.

Lemma numeric_entry_other (e : io) : entry_error e = None -> numeric_entry e.
Proof.
  destruct e as [m| | | | | |]; try exact (fun _ => I).
  destruct m; try exact (fun _ => I).
  destruct f; try exact (fun _ => I); discriminate.
Qed.

(** Reports printed by the directory part name files with a numeric name. *)
Lemma parse_directory_reports (s : HTTPReplyTestServer) (w : world)
  (evs : list accept_result) :
  Forall numeric_entry (trace (parse_directory s w evs)).
Proof.
  unfold parse_directory.
  destruct (fs w (test_case_dir s)) as [[c|raw m|children]|].
  - constructor.
  - constructor.
  - apply inject_files_reports; [exact numeric_entry_other|].
    apply Forall_forall. intros [i f] Hin.
    apply dir_test_cases_spec in Hin as [_ [Hint _]]. simpl. congruence.
  - repeat constructor.
Qed.

(** Reports printed by the zip part name members with a numeric base name. *)
Lemma parse_zip_reports (s : HTTPReplyTestServer) (w : world) (p : string)
  (evs : list accept_result) :
  Forall numeric_entry (trace (parse_zip s w p evs)).
Proof.
  unfold parse_zip. destruct (open_zip (fs w) p) as [members| |].
  - destruct (is_empty _); [repeat constructor|].
    apply Forall_and_then; [repeat constructor|].
    apply inject_members_reports; [exact numeric_entry_other|].
    apply Forall_forall. intros [i n] Hin.
    apply sorted_In, zip_test_cases_spec in Hin as [_ [Hint _]].
    simpl. congruence.
  - apply Forall_and_then; [repeat constructor|].
    apply parse_directory_reports.
  - apply Forall_and_then; [repeat constructor|].
    apply parse_directory_reports.
Qed.


(** ** Claims about resolution *)

(** C3: for a zip archive and for a directory, with entries of any names
    (of code points below 256, on which [Py.int] is CPython's [int]), the
    selected entries are exactly those whose base name [int] parses to
    an index with [start_index <= index <= stop_index]; hence the indices
    of the resolved sequence are the parseable names that lie in the range.
    Entries with other names are skipped without a report: every report
    about an entry printed during resolution names an entry whose name
    parses. *)
Theorem numeric_names_in_range (s : HTTPReplyTestServer) :
  (forall names i n,
      In (i, n) (Py.sorted Py.tuple_leb (zip_test_cases s names)) <->
      In n names /\ Py.int (Py.basename n) = Some i
      /\ start_index s <= i <= stop_index s)
  /\ (forall children i f,
      In (i, f) (dir_test_cases s (Py.sorted path_leb children)) <->
      In f children /\ Py.int (fst f) = Some i
      /\ start_index s <= i <= stop_index s)
  /\ (forall names i,
      In i (map fst (Py.sorted Py.tuple_leb (zip_test_cases s names))) <->
      exists n, In n names /\ Py.int (Py.basename n) = Some i
                /\ start_index s <= i <= stop_index s)
  /\ (forall children i,
      In i (map fst (dir_test_cases s (Py.sorted path_leb children))) <->
      exists f, In f children /\ Py.int (fst f) = Some i
                /\ start_index s <= i <= stop_index s)
  /\ (forall w p evs, Forall numeric_entry (trace (parse_zip s w p evs)))
  /\ (forall w evs, Forall numeric_entry (trace (parse_directory s w evs))).
Proof.
  assert (Hzip : forall names i n,
      In (i, n) (Py.sorted Py.tuple_leb (zip_test_cases s names)) <->
      In n names /\ Py.int (Py.basename n) = Some i
      /\ start_index s <= i <= stop_index s).
  { intros. rewrite sorted_In, zip_test_cases_spec, in_range_iff. reflexivity. }
  assert (Hdir : forall children i f,
      In (i, f) (dir_test_cases s (Py.sorted path_leb children)) <->
      In f children /\ Py.int (fst f) = Some i
      /\ start_index s <= i <= stop_index s).
  { intros. rewrite dir_test_cases_spec, sorted_In, in_range_iff. reflexivity. }
  split; [exact Hzip|]. split; [exact Hdir|].
  split; [|split; [|split]]; [intros names i; split | intros children i; split | |].
  - intros H. apply in_map_iff in H as [[j n] [<- Hin]].
    exists n. apply Hzip. exact Hin.
  - intros [n Hn]. apply in_map_iff. exists (i, n).
    split; [reflexivity | apply Hzip, Hn].
  - intros H. apply in_map_iff in H as [[j f] [<- Hin]].
    exists f. apply Hdir. exact Hin.
  - intros [f Hf]. apply in_map_iff. exists (i, f).
    split; [reflexivity | apply Hdir, Hf].
  - apply parse_zip_reports.
  - apply parse_directory_reports.
Qed.

(** C9: an entry is accepted whenever [int] accepts its base name (a name
    of code points below 256, on which [Py.int] is CPython's [int]), with
    the parsed value as index, provided the index lies in the range.  [int]
    accepts a sign, surrounding white space and underscores between digits,
    so that "-3", " 7 " and "1_0" denote -3, 7 and 10; a negative index is
    selected when [start_index] is negative. *)
Theorem python_int_names_accepted (s : HTTPReplyTestServer) (i : Z)
  (Hrange : start_index s <= i <= stop_index s) :
  (forall names n,
      In n names -> Py.int (Py.basename n) = Some i ->
      In (i, n) (Py.sorted Py.tuple_leb (zip_test_cases s names)))
  /\ (forall children f,
      In f children -> Py.int (fst f) = Some i ->
      In (i, f) (dir_test_cases s (Py.sorted path_leb children)))
  /\ Py.int "-3" = Some (-3) /\ Py.int " 7 " = Some 7
  /\ Py.int "1_0" = Some 10 /\ Py.int "+5" = Some 5.
Proof.
  split; [|split].
  - intros names n Hin Hint.
    apply sorted_In, zip_test_cases_spec. rewrite in_range_iff. tauto.
  - intros children f Hin Hint.
    apply dir_test_cases_spec. rewrite sorted_In, in_range_iff. tauto.
  - repeat split; reflexivity.
Qed.

Lemma python_int_names_accepted_witness :
  In (-3, ("-3"%string, Some payload_A))
     (dir_test_cases (configure from_minus_five)
                     (Py.sorted (path_leb) odd_names))
  /\ In (-3, "cases/-3"%string)
        (Py.sorted Py.tuple_leb
           (zip_test_cases (configure from_minus_five)
                           ["cases/"; "cases/-3"; "cases/readme"]%string)).
Proof.
  assert (Hrange : start_index (configure from_minus_five) <= -3
                   <= stop_index (configure from_minus_five))
    by (simpl; lia).
  split.
  - apply (proj1 (proj2 (python_int_names_accepted _ (-3) Hrange))).
    + simpl. tauto.
    + reflexivity.
  - apply (proj1 (python_int_names_accepted _ (-3) Hrange)).
    + simpl. tauto.
    + reflexivity.
Defined.

(** With [-start -5 -stop 20] the files "-3", " 7 " and "1_0" are all
    injected, in the order of their names. *)
Example odd_names_injected :
  map fst (dir_test_cases (configure from_minus_five)
                          (Py.sorted path_leb odd_names))
  = [7; -3; 10].
Proof. reflexivity. Qed.

(** C2, on the code: the directory part iterates the children in the order
    of their names and does not sort the selected cases by index.  For the
    files "0", "1", "2", "10" the cases are resolved and injected in the
    order 0, 1, 10, 2, whatever the order of the listing. *)
Theorem directory_order_is_by_name :
  map fst (dir_test_cases init (Py.sorted path_leb four_files)) = [0; 1; 10; 2]
  /\ map fst (dir_test_cases init (Py.sorted path_leb (rev four_files)))
     = [0; 1; 10; 2]
  /\ injected (trace (main default_args directory_of_four
                           (repeat (Connection good) 5)))
     = [0; 1; 10; 2]
  /\ payloads (trace (main default_args directory_of_four
                           (repeat (Connection good) 5)))
     = [payload_A; payload_B; payload_D; payload_C; response].
Proof. repeat split; vm_compute; reflexivity. Qed.

(** A chosen archive that opens but holds no case in range ends the
    resolution: a line is printed and nothing is injected, whatever the
    test directory holds. *)
Lemma zip_without_cases_ends_resolution (s : HTTPReplyTestServer) (w : world)
  (p : string) (members : list (string * option bytes))
  (evs : list accept_result) :
  Py.truthy (single_file s) = false ->
  zip_path s w = Some p ->
  open_zip (fs w) p = ZipOk members ->
  zip_test_cases s (namelist members) = [] ->
  parse_test_cases s w evs
  = (when (negb (Py.truthy (zip_file s)) && exists_ (fs w) (auto_zip_path s))
          [Print (FoundZipFile (auto_zip_path s))]
     ++ [Print (NoValidTestCasesInZip (start_index s) (stop_index s))],
     Returned, evs).
Proof.
  intros Hsingle Hzip Hopen Hnone. unfold parse_test_cases.
  rewrite Hsingle, Hzip. unfold parse_zip. rewrite Hopen, Hnone. reflexivity.
Qed.

(** C1, on the code: with [-start 0 -stop 9], an archive [testcases.zip]
    whose only member is "100" and a directory [testcases/] holding the
    file "0", [run] finds a case through the directory check, but
    [parse_test_cases] returns after the archive gave no case in range: the
    file "0" is not injected and the connection gets the default response. *)
Theorem empty_zip_hides_directory :
  has_test_cases (configure first_ten) zip_beside_directory = Some true
  /\ parse_test_cases (configure first_ten) zip_beside_directory
       [Connection good]
     = ([Print (FoundZipFile "testcases.zip");
         Print (NoValidTestCasesInZip 0 9)], Returned, [Connection good])
  /\ injected (trace (main first_ten zip_beside_directory [Connection good]))
     = []
  /\ payloads (trace (main first_ten zip_beside_directory [Connection good]))
     = [response].
Proof. repeat split; vm_compute; reflexivity. Qed.

(** ** Payloads and announcements of a trace *)

Lemma payloads_app (a b : list io) : payloads (a ++ b) = payloads a ++ payloads b.
Proof.
  induction a as [|e a IH]; simpl; [reflexivity|].
  destruct e; simpl; rewrite IH; reflexivity.
Qed.

Lemma injected_app (a b : list io) : injected (a ++ b) = injected a ++ injected b.
Proof.
  induction a as [|e a IH]; simpl; [reflexivity|].
  destruct e as [m| | | | | |]; try (rewrite IH; reflexivity).
  destruct m; simpl; rewrite IH; reflexivity.
Qed.

Lemma payloads_deliver (s : HTTPReplyTestServer) (i : Z) (d : bytes)
  (c : client) (req : bytes) : payloads (deliver s i d c req) = [d].
Proof.
  unfold deliver, when.
  destruct (is_empty req), (send_ok c), (close_ok c), (0 <? close_delay s),
           (pause_fails s c);
    reflexivity.
Qed.

Lemma injected_deliver (s : HTTPReplyTestServer) (i : Z) (d : bytes)
  (c : client) (req : bytes) : injected (deliver s i d c req) = [i].
Proof.
  unfold deliver, when.
  destruct (is_empty req), (send_ok c), (close_ok c), (0 <? close_delay s),
           (pause_fails s c);
    reflexivity.
Qed.

Lemma payloads_answer (c : client) (req : bytes) :
  payloads (answer c req) = [response].
Proof.
  unfold answer, when. destruct (is_empty req), (close_ok c); reflexivity.
Qed.

Lemma payloads_serve_loop (n : nat) (evs : list accept_result) :
  payloads (trace (serve_loop n evs)) = repeat response (answered evs).
Proof.
  revert n. induction evs as [|r evs IH]; intros n; [reflexivity|].
  destruct r as [| | |c]; cbn [serve_loop answered].
  - rewrite trace_emit, payloads_app, IH. reflexivity.
  - rewrite trace_emit, payloads_app, IH. reflexivity.
  - reflexivity.
  - destruct (request c) as [req|];
      rewrite trace_emit, payloads_app, IH; [|reflexivity].
    change (payloads ([Accept (Connection c); Print (ConnectionNumber (S n));
                       Recv (Some req)] ++ answer c req))
      with (payloads (answer c req)).
    rewrite payloads_answer. reflexivity.
Qed.

(** While only timeouts and connections whose request cannot be read
    arrive, [inject] keeps waiting, and it hands the payload to the first
    connection whose request it can read. *)
Lemma inject_loop_after_passed_over (s : HTTPReplyTestServer) (i : Z)
  (d : bytes) (pre rest : list accept_result) (c : client) (req : bytes) :
  forallb passed_over pre = true -> request c = Some req ->
  forall k, exists t,
    payloads t = [] /\ injected t = [] /\
    inject_loop s i d k (pre ++ Connection c :: rest)
    = (t ++ [Accept (Connection c); Print ConnectionFrom; Recv (Some req)]
         ++ deliver s i d c req, Returned, rest).
Proof.
  intros Hpre Hreq. induction pre as [|e pre IH]; intros k.
  - exists []. simpl. rewrite Hreq. auto.
  - cbn [forallb] in Hpre. apply andb_true_iff in Hpre as [He Hpre].
    destruct e as [| | |cl]; try discriminate He.
    + destruct (IH Hpre (S k)) as [t [Hp [Hi Ht]]].
      exists (Accept Timeout :: when (Nat.even (S k)) [Print Dot] ++ t).
      cbn [app inject_loop]. rewrite Ht.
      repeat split.
      * cbn [payloads]. rewrite payloads_app, Hp.
        destruct (Nat.even (S k)); reflexivity.
      * cbn [injected]. rewrite injected_app, Hi.
        destruct (Nat.even (S k)); reflexivity.
      * unfold emit, trace, ending, unread. cbn [app fst snd].
        rewrite <- app_assoc. reflexivity.
    + destruct (IH Hpre k) as [t [Hp [Hi Ht]]].
      cbn [passed_over] in He.
      exists ([Accept (Connection cl); Print ConnectionFrom; Recv None;
               Print (Error ReadFailed); Close true] ++ t).
      cbn [app inject_loop].
      destruct (request cl); [discriminate He|]. rewrite He, Ht.
      repeat split; assumption.
Qed.

(** ** Claims about the command line and the default response *)

(** C5: for every N and whatever the other flags, [-single N] gives the same
    run as [-start N -stop N] without [-single], and with [-single] the
    values of [-start] and [-stop] have no effect. *)
Theorem single_is_start_stop (N : Z) (a : args) (w : world)
  (evs : list accept_result) :
  main (with_single (Some N) a) w evs
  = main (with_range N N (with_single None a)) w evs
  /\ (forall start stop,
        main (with_single (Some N) (with_range start stop a)) w evs
        = main (with_single (Some N) a) w evs)
  /\ start_index (configure (with_single (Some N) a)) = N
  /\ stop_index (configure (with_single (Some N) a)) = N.
Proof. repeat split. Qed.

(** C7: the default response is the status line [HTTP/1.1 200 OK], the
    headers [Content-Type: text/plain] and [Content-Length: 13], each ended
    by CR LF, an empty line, and the 13 bytes [Hello, World!] with nothing
    after them; [serve_forever] sends exactly these bytes to every
    connection it answers. *)
Theorem default_response_literal :
  response
  = text "HTTP/1.1 200 OK" ++ CRLF
    ++ text "Content-Type: text/plain" ++ CRLF
    ++ text "Content-Length: 13" ++ CRLF
    ++ CRLF
    ++ text "Hello, World!"
  /\ List.length (text "Hello, World!") = 13%nat
  /\ Py.int "13" = Some (Z.of_nat (List.length (text "Hello, World!")))
  /\ last response x00 = "!"%byte
  /\ (forall evs,
        payloads (trace (serve_forever evs)) = repeat response (answered evs)).
Proof.
  repeat split.
  intros evs. unfold serve_forever. rewrite trace_emit, payloads_app.
  apply payloads_serve_loop.
Qed.

(** ** Claims about the single-file mode *)

Lemma truthy_Some (p : string) : p <> ""%string -> Py.truthy (Some p) = true.
Proof.
  intros H. unfold Py.truthy. destruct (String.eqb_spec p ""); [contradiction|reflexivity].
Qed.

(** C4, as the code has it: with [-file] naming a readable file of content
    X, the first accepted connection whose request can be read is sent X as
    test case 0, whatever timeouts and connections whose request cannot be
    read come before it; [run] then returns and closes the listening
    socket, so no later connection is accepted or answered. *)
Theorem single_file_then_stop (a : args) (w : world) (path : string)
  (X : bytes) (pre rest : list accept_result) (c : client) (req : bytes) :
  arg_file a = Some path -> path <> ""%string ->
  bind_ok w = true -> read_file (fs w) path = Some X ->
  forallb passed_over pre = true -> request c = Some req ->
  let r := main a w (pre ++ Connection c :: rest) in
  payloads (trace r) = [X] /\ injected (trace r) = [0]
  /\ In (Sendall X (send_ok c)) (trace r)
  /\ (exists t, payloads t = [] /\
        trace r
        = t ++ [Accept (Connection c); Print ConnectionFrom; Recv (Some req)]
            ++ deliver (configure a) 0 X c req ++ [CloseServer])
  /\ last (trace r) CloseServer = CloseServer
  /\ ending r = Returned /\ unread r = rest.
Proof.
  intros Hfile Hpath Hbind Hread Hpre Hreq.
  destruct (inject_loop_after_passed_over (configure a) 0 X pre rest c req
              Hpre Hreq 0%nat) as [t [Hp [Hi Ht]]].
  assert (Hrun : main a w (pre ++ Connection c :: rest)
    = ([Print (ServerStarted (arg_port a)); Print (Listening (arg_port a));
        Print (ReadingFile path); Print WaitingForConnect]
       ++ t ++ [Accept (Connection c); Print ConnectionFrom; Recv (Some req)]
       ++ deliver (configure a) 0 X c req ++ [CloseServer], Returned, rest)).
  { unfold main, run. rewrite Hbind.
    unfold run_body, parse_single_file, inject. simpl single_file.
    rewrite Hfile, (truthy_Some path Hpath). cbv zeta. rewrite Hread.
    unfold and_then, say, emit, trace, ending, unread. cbn [fst snd].
    rewrite Ht. unfold finish, trace, ending, unread. cbn [fst snd app].
    rewrite <- !app_assoc. reflexivity. }
  cbv zeta. rewrite Hrun. unfold trace, ending, unread. cbn [fst snd].
  split; [|split; [|split; [|split; [|split; [|split; reflexivity]]]]].
  - cbn [app payloads]. rewrite payloads_app, Hp. cbn [app payloads].
    rewrite payloads_app, payloads_deliver. reflexivity.
  - cbn [app injected]. rewrite injected_app, Hi. cbn [app injected].
    rewrite injected_app, injected_deliver. reflexivity.
  - do 3 (apply in_or_app; right). apply in_or_app; left.
    unfold deliver. apply in_or_app; right. apply in_or_app; left.
    right. left. reflexivity.
  - exists ([Print (ServerStarted (arg_port a)); Print (Listening (arg_port a));
             Print (ReadingFile path); Print WaitingForConnect] ++ t).
    split.
    + cbn [app payloads]. exact Hp.
    + rewrite <- app_assoc. reflexivity.
  - rewrite !app_assoc. apply last_last.
Qed.

Lemma single_file_then_stop_witness :
  payloads (trace (main file_foo only_foo
                        ([Timeout; Connection mute; Timeout]
                         ++ Connection good :: [Connection good])))
  = [payload_X]
  /\ ending (main file_foo only_foo
                   ([Timeout; Connection mute; Timeout]
                    ++ Connection good :: [Connection good])) = Returned
  /\ unread (main file_foo only_foo
                   ([Timeout; Connection mute; Timeout]
                    ++ Connection good :: [Connection good]))
     = [Connection good].
Proof.
  destruct (single_file_then_stop file_foo only_foo "foo.bin" payload_X
              [Timeout; Connection mute; Timeout] [Connection good] good
              (text "GET / HTTP/1.1"))
    as [Hp [_ [_ [_ [_ [He Hu]]]]]].
  - reflexivity.
  - discriminate.
  - reflexivity.
  - reflexivity.
  - reflexivity.
  - reflexivity.
  - repeat split; assumption.
Defined.

(** C4 as stated fails on both counts.  After the file has been injected
    the second connection is not answered, the run being over; and when the
    request of the first accepted connection cannot be read, that
    connection is closed with nothing sent and the file goes to the next
    one. *)
Lemma single_file_no_default_after :
  payloads (trace (main file_foo only_foo [Connection good; Connection good]))
  <> [payload_X; response]
  /\ ending (main file_foo only_foo [Connection good; Connection good])
     = Returned
  /\ unread (main file_foo only_foo [Connection good; Connection good])
     = [Connection good]
  /\ main file_foo only_foo [Connection mute; Connection good]
     = ([Print (ServerStarted 8000); Print (Listening 8000);
         Print (ReadingFile "foo.bin"); Print WaitingForConnect;
         Accept (Connection mute); Print ConnectionFrom; Recv None;
         Print (Error ReadFailed); Close true;
         Accept (Connection good); Print ConnectionFrom;
         Recv (Some (text "GET / HTTP/1.1"));
         Print (ReceivedRequest (text "GET / HTTP/1.1"));
         Print (Injecting 0 (List.length payload_X));
         Sendall payload_X true; Close true; CloseServer],
        Returned, []).
Proof.
  split; [vm_compute; discriminate|].
  split; [reflexivity|]. split; reflexivity.
Qed.

(** ** Sequencing and the directory part *)



Lemma returned_then (t : list io) (evs : list accept_result)
  (k : list accept_result -> result) :
  (t, Returned, evs) ;; k = emit t (k evs).
Proof. reflexivity. Qed.

(** The directory part reads nothing but the test directory. *)
Lemma parse_directory_local (s : HTTPReplyTestServer) (w w' : world)
  (evs : list accept_result) :
  fs w' (test_case_dir s) = fs w (test_case_dir s) ->
  parse_directory s w' evs = parse_directory s w evs.
Proof. unfold parse_directory. intros ->. reflexivity. Qed.

(** ** Claims about failures inside one injection *)



(** ** Reports of failures, and carrying on after them *)

Lemma faults_logged_app (a b : list io) :
  faults_logged a = true -> faults_logged (a ++ b) = faults_logged b.
Proof.
  induction a as [|e a IH]; [reflexivity|].
  cbn [faults_logged app]. destruct (is_fault e).
  - destruct a as [|next a]; [discriminate|].
    intros H. apply andb_true_iff in H as [Hr Hl].
    cbn [app]. rewrite Hr. cbn [andb]. apply IH, Hl.
  - exact IH.
Qed.

Lemma faults_logged_emit (t : list io) (r : result) :
  faults_logged t = true -> faults_logged (trace r) = true ->
  faults_logged (trace (emit t r)) = true.
Proof.
  intros Ht Hr. rewrite trace_emit, faults_logged_app; assumption.
Qed.

Lemma faults_logged_and_then (r : result) (k : list accept_result -> result) :
  faults_logged (trace r) = true ->
  (forall evs, faults_logged (trace (k evs)) = true) ->
  faults_logged (trace (r ;; k)) = true.
Proof.
  intros Hr Hk. unfold and_then. destruct (ending r); try exact Hr.
  apply faults_logged_emit; [exact Hr | apply Hk].
Qed.

Lemma faults_logged_when (b : bool) (t : list io) :
  faults_logged t = true -> faults_logged (when b t) = true.
Proof. destruct b; [trivial | reflexivity]. Qed.

Lemma faults_logged_deliver (s : HTTPReplyTestServer) (i : Z) (d : bytes)
  (c : client) (req : bytes) : faults_logged (deliver s i d c req) = true.
Proof.
  unfold deliver, when.
  destruct (is_empty req), (send_ok c), (close_ok c), (0 <? close_delay s),
           (pause_fails s c);
    reflexivity.
Qed.

Lemma faults_logged_answer (c : client) (req : bytes) :
  faults_logged (answer c req) = true.
Proof.
  unfold answer, when.
  destruct (is_empty req), (send_ok c), (close_ok c); reflexivity.
Qed.

Lemma faults_logged_inject (s : HTTPReplyTestServer) (i : Z) (d : bytes)
  (evs : list accept_result) :
  faults_logged (trace (inject s i d evs)) = true.
Proof.
  unfold inject. apply faults_logged_emit; [reflexivity|].
  generalize 0%nat as k.
  induction evs as [|r evs IH]; intros k; cbn [inject_loop]; [reflexivity|].
  destruct r as [| | |c].
  - apply faults_logged_emit; [|apply IH].
    cbn [faults_logged is_fault]. apply faults_logged_when. reflexivity.
  - reflexivity.
  - reflexivity.
  - destruct (request c) as [req|].
    + unfold trace. cbn [fst]. rewrite faults_logged_app; [|reflexivity].
      apply faults_logged_deliver.
    + destruct (close_ok c); [|reflexivity].
      apply faults_logged_emit; [reflexivity | apply IH].
Qed.

Lemma faults_logged_serve_forever (evs : list accept_result) :
  faults_logged (trace (serve_forever evs)) = true.
Proof.
  unfold serve_forever. apply faults_logged_emit; [reflexivity|].
  generalize 0%nat as n.
  induction evs as [|r evs IH]; intros n; cbn [serve_loop]; [reflexivity|].
  destruct r as [| | |c].
  - apply faults_logged_emit; [reflexivity | apply IH].
  - apply faults_logged_emit; [reflexivity | apply IH].
  - reflexivity.
  - destruct (request c) as [req|].
    + apply faults_logged_emit; [|apply IH].
      rewrite faults_logged_app; [|reflexivity]. apply faults_logged_answer.
    + apply faults_logged_emit; [reflexivity | apply IH].
Qed.

Lemma faults_logged_inject_members (s : HTTPReplyTestServer)
  (members : list (string * option bytes)) (cases : list (Z * string))
  (evs : list accept_result) :
  faults_logged (trace (inject_members s members cases evs)) = true.
Proof.
  revert evs. induction cases as [|[i n] more IH]; intros evs;
    cbn [inject_members]; [reflexivity|].
  destruct (zip_read members n); apply faults_logged_and_then;
    solve [apply faults_logged_inject | reflexivity | exact IH].
Qed.

Lemma faults_logged_inject_files (s : HTTPReplyTestServer)
  (cases : list (Z * (string * option bytes))) (evs : list accept_result) :
  faults_logged (trace (inject_files s cases evs)) = true.
Proof.
  revert evs. induction cases as [|[i [n d]] more IH]; intros evs;
    cbn [inject_files snd]; [reflexivity|].
  destruct d; apply faults_logged_and_then;
    solve [apply faults_logged_inject | reflexivity | exact IH].
Qed.

Lemma faults_logged_parse_directory (s : HTTPReplyTestServer) (w : world)
  (evs : list accept_result) :
  faults_logged (trace (parse_directory s w evs)) = true.
Proof.
  unfold parse_directory.
  destruct (fs w (test_case_dir s)) as [[c|raw m|children]|];
    try reflexivity.
  apply faults_logged_inject_files.
Qed.

Lemma faults_logged_parse_zip (s : HTTPReplyTestServer) (w : world)
  (p : string) (evs : list accept_result) :
  faults_logged (trace (parse_zip s w p evs)) = true.
Proof.
  unfold parse_zip. destruct (open_zip (fs w) p) as [members| |].
  - destruct (is_empty _); [reflexivity|].
    apply faults_logged_and_then; [reflexivity|].
    intros evs'. apply faults_logged_inject_members.
  - apply faults_logged_and_then; [reflexivity|].
    intros evs'. apply faults_logged_parse_directory.
  - apply faults_logged_and_then; [reflexivity|].
    intros evs'. apply faults_logged_parse_directory.
Qed.

Lemma faults_logged_parse_single_file (s : HTTPReplyTestServer) (w : world)
  (evs : list accept_result) :
  faults_logged (trace (parse_single_file s w evs)) = true.
Proof.
  unfold parse_single_file. cbv zeta.
  apply faults_logged_and_then; [reflexivity|]. intros evs'.
  destruct (read_file _ _); [apply faults_logged_inject | reflexivity].
Qed.

Lemma faults_logged_parse_test_cases (s : HTTPReplyTestServer) (w : world)
  (evs : list accept_result) :
  faults_logged (trace (parse_test_cases s w evs)) = true.
Proof.
  unfold parse_test_cases.
  destruct (Py.truthy (single_file s)); [apply faults_logged_parse_single_file|].
  apply faults_logged_and_then.
  - unfold trace. cbn [fst]. apply faults_logged_when. reflexivity.
  - intros evs'. destruct (zip_path s w);
      [apply faults_logged_parse_zip | apply faults_logged_parse_directory].
Qed.

Lemma faults_logged_run (s : HTTPReplyTestServer) (w : world)
  (evs : list accept_result) :
  faults_logged (trace (run s w evs)) = true.
Proof.
  assert (Hfinish : forall r, faults_logged (trace r) = true ->
                              faults_logged (trace (finish r)) = true).
  { intros r Hr. unfold finish.
    destruct (ending r); try exact Hr;
      unfold trace at 1; cbn [fst]; rewrite faults_logged_app; auto. }
  unfold run. apply Hfinish. destruct (bind_ok w); [|reflexivity].
  apply faults_logged_and_then; [reflexivity|]. intros evs'.
  unfold run_body.
  destruct (Py.truthy (single_file s)); [apply faults_logged_parse_single_file|].
  destruct (has_test_cases s w) as [[|]|]; [| |reflexivity].
  - apply faults_logged_and_then;
      [apply faults_logged_parse_test_cases | apply faults_logged_serve_forever].
  - apply faults_logged_and_then; [|apply faults_logged_serve_forever].
    unfold trace. cbn [fst faults_logged is_fault].
    apply faults_logged_when. reflexivity.
Qed.

Lemma carries_on_emit (t : list io) (r : result) :
  carries_on r -> carries_on (emit t r).
Proof. exact (fun H => H). Qed.

Lemma carries_on_and_then (r : result) (k : list accept_result -> result) :
  carries_on r ->
  (forall evs, calm evs = true -> carries_on (k evs)) ->
  carries_on (r ;; k).
Proof.
  intros [[Hr Hc]|[Hw Hu]] Hk.
  - rewrite and_then_returned by exact Hr. apply carries_on_emit, Hk, Hc.
  - rewrite and_then_stopped by (rewrite Hw; discriminate).
    right. split; assumption.
Qed.

Lemma carries_on_returned (t : list io) (evs : list accept_result) :
  calm evs = true -> carries_on (t, Returned, evs).
Proof. intros H. left. split; [reflexivity | exact H]. Qed.

Lemma carries_on_inject (s : HTTPReplyTestServer) (i : Z) (d : bytes)
  (evs : list accept_result) :
  calm evs = true -> carries_on (inject s i d evs).
Proof.
  unfold inject. intros Hcalm. apply carries_on_emit.
  generalize 0%nat as k. revert Hcalm.
  induction evs as [|r evs IH]; intros Hcalm k; cbn [inject_loop].
  - right. split; reflexivity.
  - cbn [calm forallb] in Hcalm. apply andb_true_iff in Hcalm as [Hr Hcalm].
    destruct r as [| | |c].
    + apply carries_on_emit, IH, Hcalm.
    + apply carries_on_returned, Hcalm.
    + discriminate Hr.
    + destruct (request c) as [req|]; [apply carries_on_returned, Hcalm|].
      destruct (close_ok c); [|apply carries_on_returned, Hcalm].
      apply carries_on_emit, IH, Hcalm.
Qed.

Lemma carries_on_inject_members (s : HTTPReplyTestServer)
  (members : list (string * option bytes)) (cases : list (Z * string))
  (evs : list accept_result) :
  calm evs = true -> carries_on (inject_members s members cases evs).
Proof.
  revert evs. induction cases as [|[i n] more IH]; intros evs Hcalm;
    cbn [inject_members].
  - apply carries_on_returned, Hcalm.
  - destruct (zip_read members n); apply carries_on_and_then; try exact IH.
    + apply carries_on_inject, Hcalm.
    + apply carries_on_returned, Hcalm.
Qed.

Lemma carries_on_inject_files (s : HTTPReplyTestServer)
  (cases : list (Z * (string * option bytes))) (evs : list accept_result) :
  calm evs = true -> carries_on (inject_files s cases evs).
Proof.
  revert evs. induction cases as [|[i [n d]] more IH]; intros evs Hcalm;
    cbn [inject_files snd].
  - apply carries_on_returned, Hcalm.
  - destruct d; apply carries_on_and_then; try exact IH.
    + apply carries_on_inject, Hcalm.
    + apply carries_on_returned, Hcalm.
Qed.

Lemma carries_on_parse_directory (s : HTTPReplyTestServer) (w : world)
  (evs : list accept_result) :
  listable s w -> calm evs = true -> carries_on (parse_directory s w evs).
Proof.
  unfold listable, parse_directory. intros Hl Hcalm.
  destruct (fs w (test_case_dir s)) as [[c|raw m|children]|];
    try contradiction.
  - apply carries_on_inject_files, Hcalm.
  - apply carries_on_returned, Hcalm.
Qed.

Lemma carries_on_parse_zip (s : HTTPReplyTestServer) (w : world) (p : string)
  (evs : list accept_result) :
  listable s w -> calm evs = true -> carries_on (parse_zip s w p evs).
Proof.
  unfold parse_zip. intros Hl Hcalm.
  destruct (open_zip (fs w) p) as [members| |].
  - destruct (is_empty _); [apply carries_on_returned, Hcalm|].
    apply carries_on_and_then; [apply carries_on_returned, Hcalm|].
    intros evs'. apply carries_on_inject_members.
  - apply carries_on_and_then; [apply carries_on_returned, Hcalm|].
    intros evs'. apply carries_on_parse_directory, Hl.
  - apply carries_on_and_then; [apply carries_on_returned, Hcalm|].
    intros evs'. apply carries_on_parse_directory, Hl.
Qed.

Lemma carries_on_parse_single_file (s : HTTPReplyTestServer) (w : world)
  (evs : list accept_result) :
  calm evs = true -> carries_on (parse_single_file s w evs).
Proof.
  unfold parse_single_file. cbv zeta. intros Hcalm.
  apply carries_on_and_then; [apply carries_on_returned, Hcalm|].
  intros evs' Hcalm'. destruct (read_file _ _).
  - apply carries_on_inject, Hcalm'.
  - apply carries_on_returned, Hcalm'.
Qed.

Lemma carries_on_parse_test_cases (s : HTTPReplyTestServer) (w : world)
  (evs : list accept_result) :
  listable s w -> calm evs = true -> carries_on (parse_test_cases s w evs).
Proof.
  unfold parse_test_cases. intros Hl Hcalm.
  destruct (Py.truthy (single_file s));
    [apply carries_on_parse_single_file, Hcalm|].
  apply carries_on_and_then; [apply carries_on_returned, Hcalm|].
  intros evs' Hcalm'. destruct (zip_path s w).
  - apply carries_on_parse_zip; assumption.
  - apply carries_on_parse_directory; assumption.
Qed.

(** Without cancellation [serve_forever] consumes the whole script and is
    still accepting at its end. *)
Lemma serve_forever_waits (evs : list accept_result) :
  calm evs = true ->
  ending (serve_forever evs) = Waiting /\ unread (serve_forever evs) = [].
Proof.
  unfold serve_forever. rewrite ending_emit, unread_emit.
  generalize 0%nat as n.
  induction evs as [|r evs IH]; intros n Hcalm; cbn [serve_loop].
  - split; reflexivity.
  - cbn [calm forallb] in Hcalm. apply andb_true_iff in Hcalm as [Hr Hcalm].
    destruct r as [| | |c]; try discriminate Hr.
    + rewrite ending_emit, unread_emit. apply IH, Hcalm.
    + rewrite ending_emit, unread_emit. apply IH, Hcalm.
    + destruct (request c); rewrite ending_emit, unread_emit; apply IH, Hcalm.
Qed.

Lemma then_serve_forever_waits (r : result) :
  carries_on r ->
  ending (r ;; serve_forever) = Waiting /\ unread (r ;; serve_forever) = [].
Proof.
  intros [[Hr Hc]|[Hw Hu]].
  - rewrite and_then_returned by exact Hr.
    rewrite ending_emit, unread_emit. apply serve_forever_waits, Hc.
  - rewrite and_then_stopped by (rewrite Hw; discriminate).
    split; assumption.
Qed.

Lemma has_test_cases_listable (s : HTTPReplyTestServer) (w : world) :
  listable s w -> has_test_cases s w <> None.
Proof.
  unfold listable, has_test_cases, dir_has_test_cases, exists_.
  destruct (fs w (test_case_dir s)) as [[c|raw m|children]|];
    try contradiction; intros _;
    destruct (negb _ && _); discriminate.
Qed.

Lemma finish_ending (r : result) : ending (finish r) = ending r.
Proof. unfold finish. destruct (ending r) eqn:E; try reflexivity; exact E. Qed.

Lemma finish_unread (r : result) : unread (finish r) = unread r.
Proof. unfold finish. destruct (ending r); reflexivity. Qed.

(** * Further properties of the resolver *)

(** ** The order of strings *)

Lemma ascii_compare_refl (a : ascii) : Ascii.compare a a = Eq.
Proof. unfold Ascii.compare. apply N.compare_refl. Qed.

Lemma ascii_compare_trans (c : comparison) (a b d : ascii) :
  Ascii.compare a b = c -> Ascii.compare b d = c -> Ascii.compare a d = c.
Proof.
  unfold Ascii.compare. destruct c; intros H1 H2.
  - apply N.compare_eq_iff in H1, H2. apply N.compare_eq_iff. congruence.
  - apply N.compare_lt_iff in H1, H2. apply N.compare_lt_iff.
    eapply N.lt_trans; eassumption.
  - apply N.compare_gt_iff in H1, H2. apply N.compare_gt_iff.
    eapply N.lt_trans; eassumption.
Qed.

Lemma string_compare_refl (s : string) : String.compare s s = Eq.
Proof.
  induction s as [|a s IH]; simpl; [reflexivity|].
  rewrite ascii_compare_refl. exact IH.
Qed.

Lemma string_leb_refl (s : string) : String.leb s s = true.
Proof. unfold String.leb. rewrite string_compare_refl. reflexivity. Qed.

Lemma string_compare_not_gt_trans (s1 s2 s3 : string) :
  String.compare s1 s2 <> Gt -> String.compare s2 s3 <> Gt ->
  String.compare s1 s3 <> Gt.
Proof.
  revert s2 s3. induction s1 as [|a s1 IH]; intros [|b s2] [|d s3];
    simpl; try congruence.
  destruct (Ascii.compare a b) eqn:Eab; [| |congruence];
    destruct (Ascii.compare b d) eqn:Ebd; try congruence; intros H1 H2.
  - apply Ascii.compare_eq_iff in Eab, Ebd. subst.
    rewrite ascii_compare_refl. eapply IH; eassumption.
  - apply Ascii.compare_eq_iff in Eab. subst. rewrite Ebd. congruence.
  - apply Ascii.compare_eq_iff in Ebd. subst. rewrite Eab. congruence.
  - rewrite (ascii_compare_trans Lt a b d Eab Ebd). congruence.
Qed.

Lemma string_leb_trans (s1 s2 s3 : string) :
  String.leb s1 s2 = true -> String.leb s2 s3 = true ->
  String.leb s1 s3 = true.
Proof.
  unfold String.leb. intros H1 H2.
  pose proof (string_compare_not_gt_trans s1 s2 s3) as H.
  destruct (String.compare s1 s2); try discriminate;
    destruct (String.compare s2 s3); try discriminate;
    destruct (String.compare s1 s3); try reflexivity;
    exfalso; apply H; congruence.
Qed.

(** ** Sorting a permutation *)

Section SortUnique.
Context {A : Type} (leb : A -> A -> bool).
Hypothesis leb_total : forall a b, leb a b = true \/ leb b a = true.
Hypothesis leb_trans :
  forall a b c, leb a b = true -> leb b c = true -> leb a c = true.

Let below (a b : A) : Prop := leb a b = true.

Lemma sorted_below (l : list A) : StronglySorted below (Py.sorted leb l).
Proof.
  apply Sorted_StronglySorted.
  - intros a b c. apply leb_trans.
  - induction l as [|x r IH]; simpl; [constructor|].
    revert IH. generalize (Py.sorted leb r) as m.
    induction m as [|y m IHm]; intros Hs; simpl.
    + repeat constructor.
    + destruct (leb x y) eqn:E.
      * constructor; [exact Hs | constructor; exact E].
      * inversion Hs as [|? ? Hm Hhd]; subst.
        constructor; [apply IHm, Hm|].
        assert (Hyx : below y x).
        { destruct (leb_total x y) as [H|H]; [congruence | exact H]. }
        destruct m as [|z m']; simpl.
        -- constructor. exact Hyx.
        -- destruct (leb x z); constructor;
             [exact Hyx | inversion Hhd; assumption].
Qed.

Lemma strongly_sorted_perm_eq (l1 l2 : list A) :
  StronglySorted below l1 -> StronglySorted below l2 ->
  Permutation l1 l2 ->
  (forall a b, In a l1 -> In b l1 -> below a b -> below b a -> a = b) ->
  l1 = l2.
Proof.
  intros H1. revert l2.
  induction H1 as [|a l1 Hs1 IH Ha]; intros l2 H2 Hp Hanti.
  - apply Permutation_nil in Hp. congruence.
  - destruct H2 as [|b l2 Hs2 Hb].
    + apply Permutation_sym, Permutation_nil in Hp. discriminate.
    + assert (Hab : a = b).
      { assert (Hina : In a (b :: l2))
          by (eapply Permutation_in; [exact Hp | left; reflexivity]).
        assert (Hinb : In b (a :: l1))
          by (eapply Permutation_in;
              [apply Permutation_sym, Hp | left; reflexivity]).
        destruct Hina as [E|Hina]; [congruence|].
        destruct Hinb as [E|Hinb]; [congruence|].
        rewrite Forall_forall in Ha, Hb.
        apply Hanti; [left; reflexivity | right; exact Hinb
                     | apply Ha, Hinb | apply Hb, Hina]. }
      subst b. f_equal. apply IH; [exact Hs2 | |].
      * eapply Permutation_cons_inv, Hp.
      * intros x y Hx Hy. apply Hanti; right; assumption.
Qed.

Lemma sorted_of_permutation (l l' : list A) :
  Permutation l l' ->
  (forall a b, In a l -> In b l -> leb a b = true -> leb b a = true -> a = b) ->
  Py.sorted leb l = Py.sorted leb l'.
Proof.
  intros Hp Hanti. apply strongly_sorted_perm_eq.
  - apply sorted_below.
  - apply sorted_below.
  - eapply perm_trans; [apply sorted_perm|].
    eapply perm_trans; [exact Hp | apply Permutation_sym, sorted_perm].
  - intros a b Ha Hb. apply Hanti; apply (sorted_In leb); assumption.
Qed.
End SortUnique.

Lemma tuple_leb_total (a b : Z * string) :
  Py.tuple_leb a b = true \/ Py.tuple_leb b a = true.
Proof.
  unfold Py.tuple_leb.
  destruct (Z.ltb_spec (fst a) (fst b)); [left; reflexivity|].
  destruct (Z.ltb_spec (fst b) (fst a)); [right; reflexivity|].
  assert (E : fst a = fst b) by lia. rewrite E, Z.eqb_refl. simpl.
  apply String.leb_total.
Qed.

Lemma tuple_leb_trans (a b c : Z * string) :
  Py.tuple_leb a b = true -> Py.tuple_leb b c = true ->
  Py.tuple_leb a c = true.
Proof.
  unfold Py.tuple_leb. intros H1 H2.
  apply orb_true_iff in H1, H2. apply orb_true_iff.
  rewrite !andb_true_iff, !Z.ltb_lt, !Z.eqb_eq in *.
  destruct H1 as [H1|[H1 L1]], H2 as [H2|[H2 L2]];
    try (left; lia).
  right. split; [lia | eapply string_leb_trans; eassumption].
Qed.

Lemma tuple_leb_antisym (a b : Z * string) :
  Py.tuple_leb a b = true -> Py.tuple_leb b a = true -> a = b.
Proof.
  unfold Py.tuple_leb. intros H1 H2.
  apply orb_true_iff in H1, H2.
  rewrite !andb_true_iff, !Z.ltb_lt, !Z.eqb_eq in *.
  destruct a as [i n], b as [j m]. simpl in *.
  destruct H1 as [H1|[H1 L1]], H2 as [H2|[H2 L2]]; try lia.
  f_equal; [exact H1 | apply String.leb_antisym; assumption].
Qed.

Lemma zip_test_cases_perm (s : HTTPReplyTestServer) (names names' : list string) :
  Permutation names names' ->
  Permutation (zip_test_cases s names) (zip_test_cases s names').
Proof.
  induction 1 as [|n l l' Hp IH|n m l|l l' l'' H1 IH1 H2 IH2].
  - constructor.
  - cbn [zip_test_cases].
    destruct (Py.basename n =? "")%string; [exact IH|].
    destruct (Py.int (Py.basename n)) as [i|]; [|exact IH].
    destruct (in_range s i); [apply perm_skip, IH | exact IH].
  - cbn [zip_test_cases].
    destruct (Py.basename n =? "")%string,
             (Py.basename m =? "")%string;
      try apply Permutation_refl;
      destruct (Py.int (Py.basename n)) as [i|];
      destruct (Py.int (Py.basename m)) as [j|];
      try apply Permutation_refl;
      try destruct (in_range s i); try destruct (in_range s j);
      try apply Permutation_refl; apply perm_swap.
  - eapply perm_trans; eassumption.
Qed.

(** X1: the sequence of cases resolved from a zip archive does not depend
    on the order in which the archive lists its members. *)
Theorem zip_resolution_ignores_archive_order (s : HTTPReplyTestServer)
  (names names' : list string) :
  Permutation names names' ->
  Py.sorted Py.tuple_leb (zip_test_cases s names)
  = Py.sorted Py.tuple_leb (zip_test_cases s names').
Proof.
  intros Hp. apply sorted_of_permutation.
  - apply tuple_leb_total.
  - apply tuple_leb_trans.
  - apply zip_test_cases_perm, Hp.
  - intros a b _ _. apply tuple_leb_antisym.
Qed.

Lemma zip_resolution_ignores_archive_order_witness :
  Py.sorted Py.tuple_leb (zip_test_cases init ["10"; "a/2"; "x"; "1"]%string)
  = Py.sorted Py.tuple_leb (zip_test_cases init ["1"; "x"; "10"; "a/2"]%string).
Proof.
  apply (zip_resolution_ignores_archive_order init).
  apply Permutation_sym.
  apply (perm_trans (l' := ["1"; "10"; "a/2"; "x"]%string)).
  - apply perm_skip.
    apply (perm_trans (l' := ["10"; "x"; "a/2"]%string));
      [apply perm_swap | apply perm_skip, perm_swap].
  - change (Permutation ([] ++ "1"%string :: ["10"; "a/2"; "x"]%string)
                        (["10"; "a/2"; "x"]%string ++ ["1"%string])).
    apply Permutation_cons_append.
Defined.

Lemma path_leb_total (a b : string * option bytes) :
  path_leb a b = true \/ path_leb b a = true.
Proof. apply String.leb_total. Qed.

Lemma path_leb_trans (a b c : string * option bytes) :
  path_leb a b = true -> path_leb b c = true -> path_leb a c = true.
Proof. apply string_leb_trans. Qed.

Lemma same_name_same_child (l : list (string * option bytes))
  (a b : string * option bytes) :
  NoDup (map fst l) -> In a l -> In b l -> fst a = fst b -> a = b.
Proof.
  induction l as [|x l IH]; simpl; [tauto|].
  intros Hnd [Ha|Ha] [Hb|Hb] E; inversion Hnd as [|? ? Hx Hl]; subst.
  - reflexivity.
  - exfalso. apply Hx. rewrite E. apply in_map, Hb.
  - exfalso. apply Hx. rewrite <- E. apply in_map, Ha.
  - apply IH; assumption.
Qed.

(** X2: the outcome of the directory part does not depend on the order in
    which the directory is listed, the names of its children being
    distinct. *)
Theorem directory_resolution_ignores_listing_order (s : HTTPReplyTestServer)
  (w w' : world) (children children' : list (string * option bytes))
  (evs : list accept_result) :
  fs w (test_case_dir s) = Some (Dir children) ->
  fs w' (test_case_dir s) = Some (Dir children') ->
  Permutation children children' ->
  NoDup (map fst children) ->
  parse_directory s w evs = parse_directory s w' evs.
Proof.
  intros Hw Hw' Hp Hnd. unfold parse_directory. rewrite Hw, Hw'.
  f_equal. f_equal. apply sorted_of_permutation.
  - apply path_leb_total.
  - apply path_leb_trans.
  - exact Hp.
  - intros a b Ha Hb Hab Hba.
    apply (same_name_same_child children); try assumption.
    apply String.leb_antisym; assumption.
Qed.

Lemma directory_resolution_ignores_listing_order_witness :
  parse_directory init directory_of_four (repeat (Connection good) 4)
  = parse_directory init directory_of_four_reversed
                    (repeat (Connection good) 4).
Proof.
  apply (directory_resolution_ignores_listing_order
           init directory_of_four directory_of_four_reversed
           four_files (rev four_files)).
  - reflexivity.
  - reflexivity.
  - apply Permutation_rev.
  - repeat constructor; simpl; intuition discriminate.
Defined.

(** ** Nested member names *)

Lemma has_slash_join (d n : string) :
  Py.has_slash (d ++ String "/" n) = true.
Proof.
  induction d as [|c d IH]; simpl; [reflexivity|].
  rewrite IH. apply orb_true_r.
Qed.

Lemma basename_join (d n : string) :
  Py.has_slash n = false -> Py.basename (d ++ String "/" n) = n.
Proof.
  intros Hn. induction d as [|c d IH]; simpl.
  - rewrite Hn. reflexivity.
  - rewrite has_slash_join. exact IH.
Qed.

(** X3: a zip member is selected by the last component of its name, at any
    depth of directories inside the archive: it is selected when [int]
    parses that component to an index in the range.  A member whose name
    ends with a slash (a directory of the archive) is never selected. *)
Theorem zip_members_selected_by_last_component (s : HTTPReplyTestServer)
  (names : list string) (d : string) :
  (forall i, ~ In (i, (d ++ "/")%string)
                  (Py.sorted Py.tuple_leb (zip_test_cases s names)))
  /\ (forall n i,
        Py.has_slash n = false ->
        (In (i, (d ++ String "/" n)%string)
            (Py.sorted Py.tuple_leb (zip_test_cases s names))
         <-> In (d ++ String "/" n)%string names /\ Py.int n = Some i
             /\ start_index s <= i <= stop_index s)).
Proof.
  split.
  - intros i Hin. apply sorted_In, zip_test_cases_spec in Hin as [_ [Hint _]].
    rewrite (basename_join d "" eq_refl) in Hint. discriminate Hint.
  - intros n i Hn.
    rewrite sorted_In, zip_test_cases_spec, in_range_iff, (basename_join d n Hn).
    reflexivity.
Qed.

Lemma zip_members_selected_by_last_component_witness :
  In (12, "run1/cases/12"%string)
     (Py.sorted Py.tuple_leb
        (zip_test_cases init ["run1/"; "run1/cases/"; "run1/cases/12"]%string)).
Proof.
  apply (proj2 (zip_members_selected_by_last_component
                  init ["run1/"; "run1/cases/"; "run1/cases/12"]%string
                  "run1/cases") "12"%string 12 eq_refl).
  split; [simpl; tauto|]. split; [reflexivity|]. simpl. unfold Py.maxsize. lia.
Defined.

(** * Further properties of a run *)

(** ** Invariants of the resolution and of the run *)

(** A property of results that holds of the calls to [inject] and
    [serve_forever] and of the steps that only print, and that sequencing
    keeps, holds of every resolution and of the body of [run]. *)
Section RunInvariant.
Variables (s : HTTPReplyTestServer) (w : world).
Variable Inv : list accept_result -> result -> Prop.
Hypothesis inv_prints :
  forall t evs, forallb is_notice t = true -> Inv evs (t, Returned, evs).
Hypothesis inv_crash :
  ~ listable s w -> forall evs, Inv evs ([], Crashed, evs).
Hypothesis inv_inject :
  forall i d evs, offered s w i d -> Inv evs (inject s i d evs).
Hypothesis inv_serve : forall evs, Inv evs (serve_forever evs).
Hypothesis inv_then :
  forall evs r k, Inv evs r -> (forall evs', Inv evs' (k evs')) ->
                  Inv evs (r ;; k).

Lemma inv_say (m : message) (evs : list accept_result) :
  is_notice (Print m) = true -> Inv evs (say m evs).
Proof. intros H. apply inv_prints. cbn [forallb]. rewrite H. reflexivity. Qed.

Lemma inv_inject_members (p : string)
  (members : list (string * option bytes)) :
  Py.truthy (single_file s) = false ->
  zip_path s w = Some p -> open_zip (fs w) p = ZipOk members ->
  forall cases,
    (forall i n, In (i, n) cases ->
                 In n (namelist members)
                 /\ Py.int (Py.basename n) = Some i /\ in_range s i = true) ->
    forall evs, Inv evs (inject_members s members cases evs).
Proof.
  intros Hs Hp Hopen. induction cases as [|[i n] more IH]; intros Hin evs;
    cbn [inject_members].
  - apply inv_prints. reflexivity.
  - assert (Hmore : forall evs', Inv evs' (inject_members s members more evs')).
    { apply IH. intros j m Hjm. apply Hin. right. exact Hjm. }
    destruct (Hin i n (or_introl eq_refl)) as [Hn [Hint Hr]].
    destruct (zip_read members n) as [d|] eqn:Hread.
    + apply inv_then; [|exact Hmore]. apply inv_inject.
      right. left. exists p, members, n. tauto.
    + apply inv_then; [apply inv_say; reflexivity | exact Hmore].
Qed.

Lemma inv_inject_files (children : list (string * option bytes)) :
  Py.truthy (single_file s) = false ->
  fs w (test_case_dir s) = Some (Dir children) ->
  forall cases,
    (forall i f, In (i, f) cases ->
                 In f children
                 /\ Py.int (fst f) = Some i /\ in_range s i = true) ->
    forall evs, Inv evs (inject_files s cases evs).
Proof.
  intros Hs Hdir. induction cases as [|[i [n d]] more IH]; intros Hin evs;
    cbn [inject_files snd fst].
  - apply inv_prints. reflexivity.
  - assert (Hmore : forall evs', Inv evs' (inject_files s more evs')).
    { apply IH. intros j f Hjf. apply Hin. right. exact Hjf. }
    destruct (Hin i (n, d) (or_introl eq_refl)) as [Hn [Hint Hr]].
    destruct d as [data|].
    + apply inv_then; [|exact Hmore]. apply inv_inject.
      right. right. exists children, n. tauto.
    + apply inv_then; [apply inv_say; reflexivity | exact Hmore].
Qed.

Lemma inv_parse_directory (evs : list accept_result) :
  Py.truthy (single_file s) = false -> Inv evs (parse_directory s w evs).
Proof.
  intros Hs. unfold parse_directory.
  destruct (fs w (test_case_dir s)) as [[c|raw m|children]|] eqn:Hdir.
  - apply inv_crash. unfold listable. rewrite Hdir. tauto.
  - apply inv_crash. unfold listable. rewrite Hdir. tauto.
  - apply (inv_inject_files children Hs Hdir).
    intros i f Hin. apply dir_test_cases_spec in Hin.
    rewrite sorted_In in Hin. exact Hin.
  - apply inv_prints. reflexivity.
Qed.

Lemma inv_parse_zip (p : string) (evs : list accept_result) :
  Py.truthy (single_file s) = false ->
  zip_path s w = Some p -> Inv evs (parse_zip s w p evs).
Proof.
  intros Hs Hp. unfold parse_zip.
  destruct (open_zip (fs w) p) as [members| |] eqn:Hopen.
  - destruct (is_empty _); [apply inv_say; reflexivity|].
    apply inv_then; [apply inv_say; reflexivity|].
    apply (inv_inject_members p members Hs Hp Hopen).
    intros i n Hin. apply sorted_In, zip_test_cases_spec in Hin. exact Hin.
  - apply inv_then; [apply inv_say; reflexivity|].
    intros evs'. apply inv_parse_directory, Hs.
  - apply inv_then; [apply inv_say; reflexivity|].
    intros evs'. apply inv_parse_directory, Hs.
Qed.

Lemma inv_parse_single_file (evs : list accept_result) :
  Py.truthy (single_file s) = true -> Inv evs (parse_single_file s w evs).
Proof.
  intros Hs. unfold parse_single_file. cbv zeta.
  apply inv_then; [apply inv_say; reflexivity|]. intros evs'.
  destruct (read_file (fs w) _) as [data|] eqn:Hread.
  - apply inv_inject. left. repeat split; [exact Hs | exact Hread].
  - apply inv_say. reflexivity.
Qed.

Lemma inv_parse_test_cases (evs : list accept_result) :
  Inv evs (parse_test_cases s w evs).
Proof.
  unfold parse_test_cases.
  destruct (Py.truthy (single_file s)) eqn:Hs;
    [apply inv_parse_single_file, Hs|].
  apply inv_then.
  - apply inv_prints. destruct (_ && _); reflexivity.
  - intros evs'. destruct (zip_path s w) as [p|] eqn:Hp.
    + apply inv_parse_zip; assumption.
    + apply inv_parse_directory, Hs.
Qed.

Lemma inv_run_body (evs : list accept_result) : Inv evs (run_body s w evs).
Proof.
  unfold run_body.
  destruct (Py.truthy (single_file s)) eqn:Hs;
    [apply inv_parse_single_file, Hs|].
  destruct (has_test_cases s w) as [[|]|] eqn:Hhas.
  - apply inv_then; [apply inv_parse_test_cases | exact inv_serve].
  - apply inv_then; [|exact inv_serve].
    apply inv_prints. cbn [forallb is_notice andb].
    destruct (_ && _); reflexivity.
  - apply inv_crash. intros Hl.
    apply (has_test_cases_listable s w Hl Hhas).
Qed.

Lemma inv_resolution_and_body :
  (forall evs, Inv evs (parse_test_cases s w evs))
  /\ (forall evs, Inv evs (run_body s w evs)).
Proof. split; [exact inv_parse_test_cases | exact inv_run_body]. Qed.
End RunInvariant.

(** ** The frame that [run] puts around its body *)

Lemma run_ending (s : HTTPReplyTestServer) (w : world)
  (evs : list accept_result) :
  ending (run s w evs)
  = if bind_ok w then ending (run_body s w evs) else Exited (-1).
Proof.
  unfold run. rewrite finish_ending. destruct (bind_ok w); reflexivity.
Qed.

Lemma run_unread (s : HTTPReplyTestServer) (w : world)
  (evs : list accept_result) :
  unread (run s w evs) = if bind_ok w then unread (run_body s w evs) else evs.
Proof.
  unfold run. rewrite finish_unread. destruct (bind_ok w); reflexivity.
Qed.

Lemma run_trace (s : HTTPReplyTestServer) (w : world)
  (evs : list accept_result) :
  trace (run s w evs)
  = if bind_ok w
    then Print (ServerStarted (port s)) :: Print (Listening (port s))
         :: trace (run_body s w evs)
         ++ match ending (run_body s w evs) with
            | Waiting => []
            | _ => [CloseServer]
            end
    else [Print (Error BindFailed); CloseServer].
Proof.
  unfold run, finish. destruct (bind_ok w); [|reflexivity].
  rewrite returned_then, ending_emit.
  destruct (ending (run_body s w evs)); unfold emit, trace, unread;
    cbn [fst snd app]; rewrite ?app_nil_r; reflexivity.
Qed.

(** ** What a run writes *)

Lemma legitimate_notices (s : HTTPReplyTestServer) (w : world) (t : list io) :
  forallb is_notice t = true -> Forall (legitimate s w) t.
Proof.
  induction t as [|e t IH]; cbn [forallb]; [constructor|].
  intros H. apply andb_true_iff in H as [He Ht].
  constructor; [|apply IH, Ht].
  destruct e as [m| | | | | |]; try discriminate He.
  destruct m; try exact I. discriminate He.
Qed.

Lemma legitimate_deliver (s : HTTPReplyTestServer) (w : world) (i : Z)
  (d : bytes) (c : client) (req : bytes) :
  offered s w i d -> Forall (legitimate s w) (deliver s i d c req).
Proof.
  intros Hoff. unfold deliver.
  destruct ((0 <? close_delay s) && pause_fails s c);
    repeat first [apply Forall_nil | apply Forall_when
                 | apply Forall_app; split | apply Forall_cons];
    try exact I.
  - exists d. split; [exact Hoff | reflexivity].
  - right. exists i. exact Hoff.
  - exists d. split; [exact Hoff | reflexivity].
  - right. exists i. exact Hoff.
Qed.

Lemma legitimate_inject (s : HTTPReplyTestServer) (w : world) (i : Z)
  (d : bytes) (evs : list accept_result) :
  offered s w i d -> Forall (legitimate s w) (trace (inject s i d evs)).
Proof.
  intros Hoff. unfold inject. apply Forall_emit; [repeat constructor|].
  generalize 0%nat as k.
  induction evs as [|r evs IH]; intros k; cbn [inject_loop]; [constructor|].
  destruct r as [| | |c].
  - apply Forall_emit; [|apply IH].
    constructor; [exact I|]. apply Forall_when. repeat constructor.
  - repeat constructor.
  - repeat constructor.
  - destruct (request c) as [req|].
    + unfold trace. cbn [fst]. apply Forall_app. split; [repeat constructor|].
      apply legitimate_deliver, Hoff.
    + destruct (close_ok c); [|repeat constructor].
      apply Forall_emit; [repeat constructor | apply IH].
Qed.

Lemma legitimate_serve_forever (s : HTTPReplyTestServer) (w : world)
  (evs : list accept_result) :
  Forall (legitimate s w) (trace (serve_forever evs)).
Proof.
  unfold serve_forever. apply Forall_emit; [repeat constructor|].
  generalize 0%nat as n.
  induction evs as [|r evs IH]; intros n; cbn [serve_loop]; [constructor|].
  destruct r as [| | |c].
  - apply Forall_emit; [repeat constructor | apply IH].
  - apply Forall_emit; [repeat constructor | apply IH].
  - repeat constructor.
  - destruct (request c) as [req|].
    + apply Forall_emit; [|apply IH].
      apply Forall_app. split; [repeat constructor|].
      unfold answer.
      repeat first [apply Forall_nil | apply Forall_when
                   | apply Forall_app; split | apply Forall_cons];
        try exact I.
      * left. reflexivity.
      * destruct (send_ok c); exact I.
    + apply Forall_emit; [repeat constructor | apply IH].
Qed.

Lemma payload_was_sent (t : list io) (d : bytes) :
  In d (payloads t) -> exists ok, In (Sendall d ok) t.
Proof.
  induction t as [|e t IH]; simpl; [tauto|].
  destruct e as [m|r|r|data ok|ms|ok|]; simpl;
    try (intros H; destruct (IH H) as [ok' H']; exists ok'; right; exact H').
  intros [<-|H]; [exists ok; left; reflexivity|].
  destruct (IH H) as [ok' H']. exists ok'. right. exact H'.
Qed.

Lemma run_legitimate (s : HTTPReplyTestServer) (w : world)
  (evs : list accept_result) :
  Forall (legitimate s w) (trace (run s w evs)).
Proof.
  assert (Hbody : Forall (legitimate s w) (trace (run_body s w evs))).
  { apply (inv_run_body s w (fun _ r => Forall (legitimate s w) (trace r))).
    - intros t l Ht. apply legitimate_notices, Ht.
    - intros _ l. constructor.
    - intros i d l. apply legitimate_inject.
    - apply legitimate_serve_forever.
    - intros l r k. apply Forall_and_then. }
  rewrite run_trace. destruct (bind_ok w); [|repeat constructor].
  constructor; [exact I|]. constructor; [exact I|].
  apply Forall_app. split; [apply Hbody|].
  destruct (ending _); repeat constructor.
Qed.

(** X4: whatever the files and the connections, a run writes to a
    connection nothing but the default response or the content of a test
    case held by its sources (the single file, a member of the chosen
    archive or a file of the test directory, with a name that parses to an
    index in the range), and every "Injecting testcase" line announces such
    a case with its own index and size. *)
Theorem run_sends_only_offered_cases (s : HTTPReplyTestServer) (w : world)
  (evs : list accept_result) :
  Forall (legitimate s w) (trace (run s w evs))
  /\ (forall d, In d (payloads (trace (run s w evs))) ->
                d = response \/ exists i, offered s w i d).
Proof.
  pose proof (run_legitimate s w evs) as Hall.
  split; [exact Hall|].
  intros d Hd. apply payload_was_sent in Hd as [ok Hin].
  rewrite Forall_forall in Hall. exact (Hall _ Hin).
Qed.

Lemma injected_was_announced (t : list io) (i : Z) :
  In i (injected t) -> exists n, In (Print (Injecting i n)) t.
Proof.
  induction t as [|e t IH]; simpl; [tauto|].
  assert (Hrest : In i (injected t) ->
                  exists n, e = Print (Injecting i n) \/ In (Print (Injecting i n)) t).
  { intros H. destruct (IH H) as [n Hn]. exists n. right. exact Hn. }
  destruct e as [m| | | | | |]; try exact Hrest.
  destruct m; try exact Hrest.
  intros [<-|H]; [|exact (Hrest H)]. eexists. left. reflexivity.
Qed.

(** X14: without [-file] every injection announced by a run has an index
    between [start_index] and [stop_index]; with [-file] the only index
    ever announced is 0. *)
Theorem injected_indices_in_range (s : HTTPReplyTestServer) (w : world)
  (evs : list accept_result) (i : Z) :
  In i (injected (trace (run s w evs))) ->
  (Py.truthy (single_file s) = false ->
   start_index s <= i <= stop_index s)
  /\ (Py.truthy (single_file s) = true -> i = 0).
Proof.
  intros Hin. apply injected_was_announced in Hin as [n Hin].
  pose proof (run_legitimate s w evs) as Hall.
  rewrite Forall_forall in Hall. specialize (Hall _ Hin).
  destruct Hall as [d [Hoff _]].
  destruct Hoff as [[Ht [Hi _]]
                   |[[p [members [m [Hf [_ [_ [_ [_ [Hr _]]]]]]]]]
                    |[children [m [Hf [_ [_ [_ Hr]]]]]]]];
    split; intros Hs; try congruence; apply in_range_iff, Hr.
Qed.

Lemma injected_indices_in_range_witness :
  start_index (configure single_two) <= 2 <= stop_index (configure single_two).
Proof.
  apply (proj1 (injected_indices_in_range (configure single_two)
                  directory_of_four (repeat (Connection good) 3) 2
                  ltac:(vm_compute; left; reflexivity))).
  reflexivity.
Defined.

(** ** Exit status *)

Lemma calm_cons (r : accept_result) (evs : list accept_result) :
  calm (r :: evs) = negb (is_cancel r) && calm evs.
Proof. reflexivity. Qed.

Lemma inject_exit (s : HTTPReplyTestServer) (i : Z) (d : bytes)
  (evs : list accept_result) (c : Z) :
  ending (inject s i d evs) = Exited c -> c = 0 /\ calm evs = false.
Proof.
  unfold inject. rewrite ending_emit. generalize 0%nat as k.
  induction evs as [|r evs IH]; intros k; cbn [inject_loop];
    [discriminate|].
  rewrite calm_cons. destruct r as [| | |cl]; cbn [is_cancel negb andb].
  - rewrite ending_emit. apply IH.
  - discriminate.
  - intros H. inversion H. split; reflexivity.
  - destruct (request cl); [discriminate|].
    destruct (close_ok cl); [|discriminate].
    rewrite ending_emit. apply IH.
Qed.

Lemma serve_forever_exit (evs : list accept_result) (c : Z) :
  ending (serve_forever evs) = Exited c -> c = 0 /\ calm evs = false.
Proof.
  unfold serve_forever. rewrite ending_emit. generalize 0%nat as n.
  induction evs as [|r evs IH]; intros n; cbn [serve_loop]; [discriminate|].
  rewrite calm_cons. destruct r as [| | |cl]; cbn [is_cancel negb andb].
  - rewrite ending_emit. apply IH.
  - rewrite ending_emit. apply IH.
  - intros H. inversion H. split; reflexivity.
  - destruct (request cl); rewrite ending_emit; apply IH.
Qed.

Lemma carries_on_calm (r : result) : carries_on r -> calm (unread r) = true.
Proof. intros [[_ H]|[_ H]]; [exact H | rewrite H; reflexivity]. Qed.

Section ExitStatus.
Variables (s : HTTPReplyTestServer) (w : world).

Let exits_on_cancel (evs : list accept_result) (r : result) : Prop :=
  (forall c, ending r = Exited c -> c = 0 /\ calm evs = false)
  /\ (calm evs = true -> calm (unread r) = true).

Lemma run_body_exits_on_cancel (evs : list accept_result) :
  exits_on_cancel evs (run_body s w evs).
Proof.
  apply (inv_run_body s w exits_on_cancel); unfold exits_on_cancel.
  - intros t l _. split; [discriminate | trivial].
  - intros _ l. split; [discriminate | trivial].
  - intros i d l _. split; [apply inject_exit|].
    intros Hc. apply carries_on_calm, carries_on_inject, Hc.
  - intros l. split; [apply serve_forever_exit|].
    intros Hc. destruct (serve_forever_waits l Hc) as [_ ->]. reflexivity.
  - intros l r k [Hr1 Hr2] Hk. unfold and_then.
    destruct (ending r) eqn:Er;
      [|rewrite Er; split; [exact Hr1 | exact Hr2] ..].
    rewrite ending_emit, unread_emit.
    destruct (Hk (unread r)) as [Hk1 Hk2]. split.
    + intros c Hc. destruct (Hk1 c Hc) as [-> Hcalm]. split; [reflexivity|].
      destruct (calm l); [|reflexivity].
      rewrite (Hr2 eq_refl) in Hcalm. discriminate Hcalm.
    + intros Hc. apply Hk2, Hr2, Hc.
Qed.
End ExitStatus.

(** X5: when the port cannot be bound the run prints the error, reads no
    file, accepts no connection and exits with status -1 after closing the
    socket; when it is bound, the run exits only on a cancellation and then
    with status 0, whatever the files and the connections. *)
Theorem exit_status (s : HTTPReplyTestServer) (w : world)
  (evs : list accept_result) :
  (bind_ok w = false ->
   run s w evs = ([Print (Error BindFailed); CloseServer], Exited (-1), evs))
  /\ (bind_ok w = true ->
      forall c, ending (run s w evs) = Exited c -> c = 0 /\ calm evs = false).
Proof.
  split; intros Hbind.
  - unfold run. rewrite Hbind. reflexivity.
  - intros c. rewrite run_ending, Hbind.
    apply (run_body_exits_on_cancel s w evs).
Qed.

Lemma exit_status_witness :
  run init {| bind_ok := false; fs := table [] |} [Connection good]
  = ([Print (Error BindFailed); CloseServer], Exited (-1), [Connection good])
  /\ calm [Connection good; Cancelled; Connection good] = false.
Proof.
  split.
  - apply (proj1 (exit_status init {| bind_ok := false; fs := table [] |}
                              [Connection good]) eq_refl).
  - apply (proj2 (exit_status init directory_of_four
                              [Connection good; Cancelled; Connection good])
                 eq_refl 0 eq_refl).
Defined.

(** ** Cancellation *)

Lemma inject_cancelled (s : HTTPReplyTestServer) (i : Z) (d : bytes)
  (pre rest : list accept_result) :
  calm pre = true ->
  let r := inject s i d (pre ++ Cancelled :: rest) in
  (ending r = Returned
   /\ exists pre', cancelled_after pre' rest (unread r))
  \/ (ending r = Exited 0 /\ unread r = rest).
Proof.
  cbv zeta. unfold inject. rewrite ending_emit, unread_emit.
  generalize 0%nat as k.
  induction pre as [|e pre IH]; intros k Hc; cbn [app inject_loop].
  - right. split; reflexivity.
  - rewrite calm_cons in Hc. apply andb_true_iff in Hc as [He Hc].
    assert (Hret : forall t,
      (ending (t, Returned, pre ++ Cancelled :: rest) = Returned
       /\ exists pre', cancelled_after pre' rest
                         (unread (t, Returned, pre ++ Cancelled :: rest)))
      \/ (ending (t, Returned, pre ++ Cancelled :: rest) = Exited 0
          /\ unread (t, Returned, pre ++ Cancelled :: rest) = rest)).
    { intros t. left. split; [reflexivity|]. exists pre. split; [exact Hc|reflexivity]. }
    destruct e as [| | |cl]; try discriminate He.
    + rewrite ending_emit, unread_emit. apply IH, Hc.
    + apply Hret.
    + destruct (request cl); [apply Hret|].
      destruct (close_ok cl); [|apply Hret].
      rewrite ending_emit, unread_emit. apply IH, Hc.
Qed.

Lemma serve_forever_cancelled (pre rest : list accept_result) :
  calm pre = true ->
  ending (serve_forever (pre ++ Cancelled :: rest)) = Exited 0
  /\ unread (serve_forever (pre ++ Cancelled :: rest)) = rest.
Proof.
  unfold serve_forever. rewrite ending_emit, unread_emit.
  generalize 0%nat as n.
  induction pre as [|e pre IH]; intros n Hc; cbn [app serve_loop].
  - split; reflexivity.
  - rewrite calm_cons in Hc. apply andb_true_iff in Hc as [He Hc].
    destruct e as [| | |cl]; try discriminate He.
    + rewrite ending_emit, unread_emit. apply IH, Hc.
    + rewrite ending_emit, unread_emit. apply IH, Hc.
    + destruct (request cl); rewrite ending_emit, unread_emit; apply IH, Hc.
Qed.

Section Cancellation.
Variables (s : HTTPReplyTestServer) (w : world) (rest : list accept_result).
Hypothesis Hlistable : listable s w.

Let stops_at_cancel (evs : list accept_result) (r : result) : Prop :=
  forall pre, cancelled_after pre rest evs ->
    (ending r = Returned /\ exists pre', cancelled_after pre' rest (unread r))
    \/ (ending r = Exited 0 /\ unread r = rest).

Lemma stops_at_cancel_everywhere :
  (forall evs, stops_at_cancel evs (parse_test_cases s w evs))
  /\ (forall evs, stops_at_cancel evs (run_body s w evs)).
Proof.
  apply (inv_resolution_and_body s w stops_at_cancel); unfold stops_at_cancel.
  - intros t l _ pre Hpre. left. split; [reflexivity|]. exists pre. exact Hpre.
  - intros Hn. contradiction.
  - intros i d l _ pre [Hc ->]. apply inject_cancelled, Hc.
  - intros l pre [Hc ->]. right. apply serve_forever_cancelled, Hc.
  - intros l r k Hr Hk pre Hpre.
    destruct (Hr pre Hpre) as [[Er [pre' Hpre']]|[Er Hu]].
    + rewrite and_then_returned by exact Er.
      rewrite ending_emit, unread_emit. apply (Hk _ pre' Hpre').
    + rewrite and_then_stopped by (rewrite Er; discriminate).
      right. split; assumption.
Qed.
End Cancellation.

(** X6: a cancellation while the server waits in [accept] ends the run
    with status 0 and the listening socket closed, and nothing that
    arrives afterwards is accepted.  Without [-file] every such run ends
    this way; with [-file] the run may already have returned after its
    single injection. *)
Theorem cancellation_ends_run (s : HTTPReplyTestServer) (w : world)
  (pre rest : list accept_result) :
  bind_ok w = true -> listable s w -> calm pre = true ->
  let r := run s w (pre ++ Cancelled :: rest) in
  (Py.truthy (single_file s) = false ->
   ending r = Exited 0 /\ unread r = rest)
  /\ (ending r = Exited 0 \/ ending r = Returned)
  /\ last (trace r) CloseServer = CloseServer.
Proof.
  intros Hbind Hl Hc. cbv zeta.
  destruct (stops_at_cancel_everywhere s w rest Hl) as [Hparse Hrun].
  pose proof (Hrun (pre ++ Cancelled :: rest) pre (conj Hc eq_refl)) as Hbody.
  rewrite run_ending, run_unread, run_trace, Hbind.
  split; [|split].
  - intros Hsingle. clear Hbody. unfold run_body. rewrite Hsingle.
    pose proof (has_test_cases_listable s w Hl) as Hhas.
    destruct (has_test_cases s w) as [[|]|]; [| |congruence].
    + destruct (Hparse (pre ++ Cancelled :: rest) pre (conj Hc eq_refl))
        as [[Er [pre' [Hc' Hu]]]|[Er Hu]].
      * rewrite and_then_returned by exact Er.
        rewrite ending_emit, unread_emit, Hu.
        apply serve_forever_cancelled, Hc'.
      * rewrite and_then_stopped by (rewrite Er; discriminate).
        split; assumption.
    + rewrite returned_then, ending_emit, unread_emit.
      apply serve_forever_cancelled, Hc.
  - destruct Hbody as [[Er _]|[Er _]]; rewrite Er; auto.
  - destruct Hbody as [[Er _]|[Er _]]; rewrite Er;
      rewrite !app_comm_cons; apply last_last.
Qed.

Lemma cancellation_ends_run_witness :
  ending (run init directory_of_four
              ([Connection good; AcceptFails; Timeout]
               ++ Cancelled :: [Connection good])) = Exited 0
  /\ unread (run init directory_of_four
                 ([Connection good; AcceptFails; Timeout]
                  ++ Cancelled :: [Connection good])) = [Connection good].
Proof.
  apply (proj1 (cancellation_ends_run init directory_of_four
                  [Connection good; AcceptFails; Timeout] [Connection good]
                  eq_refl I eq_refl) eq_refl).
Defined.

(** ** The pause before closing *)

Lemma sleeps_app (a b : list io) : sleeps (a ++ b) = sleeps a ++ sleeps b.
Proof.
  induction a as [|e a IH]; simpl; [reflexivity|].
  destruct e; simpl; rewrite IH; reflexivity.
Qed.

Lemma notices_are_quiet (t : list io) :
  forallb is_notice t = true -> sleeps t = [] /\ injected t = [].
Proof.
  induction t as [|e t IH]; cbn [forallb]; [split; reflexivity|].
  intros H. apply andb_true_iff in H as [He Ht].
  destruct (IH Ht) as [Hs Hi].
  destruct e as [m| | | | | |]; try discriminate He.
  destruct m; try discriminate He; simpl; split; assumption.
Qed.

Section Pause.
Variable s : HTTPReplyTestServer.

Let enabled : bool :=
  (0 <? close_delay s) && negb (Py.sleep_overflows (close_delay s)).

(** The pauses of a call: each lasts [close_delay], none is made unless
    the delay is positive and below the bound, there is at most one for
    every injection announced, and exactly one when the clock lets every
    pause return. *)
Let paced (evs : list accept_result) (r : result) : Prop :=
  Forall (fun ms => ms = close_delay s /\ enabled = true) (sleeps (trace r))
  /\ (List.length (sleeps (trace r)) <= List.length (injected (trace r)))%nat
  /\ (steady_clock evs = true ->
      steady_clock (unread r) = true
      /\ (enabled = true ->
          List.length (sleeps (trace r))
          = List.length (injected (trace r)))).

Lemma paced_quiet (t : list io) (o : outcome) (evs : list accept_result) :
  sleeps t = [] -> injected t = [] -> paced evs (t, o, evs).
Proof.
  intros Hs Hi. unfold paced, trace, unread. cbn [fst snd]. rewrite Hs, Hi.
  repeat split; auto.
Qed.

Lemma paced_step (e : accept_result) (evs : list accept_result)
  (t : list io) (r : result) :
  sleeps t = [] -> injected t = [] -> paced evs r ->
  paced (e :: evs) (emit t r).
Proof.
  intros Hs Hi (H1 & H2 & H3). unfold paced.
  rewrite trace_emit, unread_emit, sleeps_app, injected_app, Hs, Hi.
  cbn [app]. split; [exact H1|]. split; [exact H2|].
  intros Hst. cbn [steady_clock forallb] in Hst.
  apply andb_true_iff in Hst as [_ Hst]. apply H3, Hst.
Qed.

Lemma paced_then (evs : list accept_result) (r : result)
  (k : list accept_result -> result) :
  paced evs r -> (forall evs', paced evs' (k evs')) -> paced evs (r ;; k).
Proof.
  intros (H1 & H2 & H3) Hk. unfold and_then.
  destruct (ending r); try exact (conj H1 (conj H2 H3)).
  destruct (Hk (unread r)) as (K1 & K2 & K3). unfold paced.
  rewrite trace_emit, unread_emit, sleeps_app, injected_app, !length_app.
  split; [apply Forall_app; split; assumption|]. split; [lia|].
  intros Hst. destruct (H3 Hst) as [Hu He]. destruct (K3 Hu) as [Ku Ke].
  split; [exact Ku|]. intros Hen. rewrite (He Hen), (Ke Hen). reflexivity.
Qed.

Lemma sleeps_deliver (i : Z) (d : bytes) (c : client) (req : bytes) :
  sleeps (deliver s i d c req)
  = if (0 <? close_delay s) && negb (pause_fails s c)
    then [close_delay s] else [].
Proof.
  unfold deliver, when.
  destruct (is_empty req), (send_ok c), (close_ok c), (0 <? close_delay s),
           (pause_fails s c); reflexivity.
Qed.

Lemma paced_deliver (i : Z) (d : bytes) (c : client) (req : bytes)
  (t : list io) (evs : list accept_result) :
  sleeps t = [] -> injected t = [] ->
  paced (Connection c :: evs) (t ++ deliver s i d c req, Returned, evs).
Proof.
  intros Hs Hi. unfold paced, trace, unread. cbn [fst snd].
  rewrite sleeps_app, injected_app, Hs, Hi, sleeps_deliver, injected_deliver.
  cbn [app]. unfold pause_fails, enabled.
  destruct (0 <? close_delay s), (Py.sleep_overflows (close_delay s)),
           (sleep_ok c) eqn:Hc; cbn [andb orb negb List.length];
    (split; [repeat constructor|]); (split; [lia|]);
    intros Hst; cbn [steady_clock forallb] in Hst; rewrite Hc in Hst;
    try discriminate Hst; (split; [exact Hst|]); intros H;
    try discriminate H; reflexivity.
Qed.

Lemma paced_inject (i : Z) (d : bytes) (evs : list accept_result) :
  paced evs (inject s i d evs).
Proof.
  unfold inject.
  assert (Hloop : forall k, paced evs (inject_loop s i d k evs)).
  { induction evs as [|r evs IH]; intros k; cbn [inject_loop].
    - apply paced_quiet; reflexivity.
    - destruct r as [| | |c].
      + apply paced_step; [| |apply IH];
          cbn [sleeps injected]; destruct (Nat.even (S k)); reflexivity.
      + apply (paced_step AcceptFails evs
                 [Accept AcceptFails; Print (Error AcceptFailed)]
                 ([], Returned, evs)); try reflexivity.
        apply paced_quiet; reflexivity.
      + apply (paced_step Cancelled evs
                 [Accept Cancelled; Print ShuttingDown]
                 ([], Exited 0, evs)); try reflexivity.
        apply paced_quiet; reflexivity.
      + destruct (request c) as [req|].
        * apply (paced_deliver i d c req
                   [Accept (Connection c); Print ConnectionFrom;
                    Recv (Some req)]); reflexivity.
        * destruct (close_ok c).
          -- apply paced_step; [reflexivity | reflexivity | apply IH].
          -- apply (paced_step (Connection c) evs
                      [Accept (Connection c); Print ConnectionFrom; Recv None;
                       Print (Error ReadFailed); Close false;
                       Print (Error CloseFailed)]
                      ([], Returned, evs)); try reflexivity.
             apply paced_quiet; reflexivity. }
  destruct (Hloop 0%nat) as (H1 & H2 & H3). unfold paced.
  rewrite trace_emit, unread_emit. cbn [app sleeps injected].
  repeat split; try assumption; apply H3; assumption.
Qed.

Lemma paced_serve_forever (evs : list accept_result) :
  paced evs (serve_forever evs).
Proof.
  unfold serve_forever.
  assert (Hloop : forall n, paced evs (serve_loop n evs)).
  { induction evs as [|r evs IH]; intros n; cbn [serve_loop].
    - apply paced_quiet; reflexivity.
    - destruct r as [| | |c].
      + apply paced_step; [reflexivity | reflexivity | apply IH].
      + apply paced_step; [reflexivity | reflexivity | apply IH].
      + apply (paced_step Cancelled evs
                 [Accept Cancelled; Print ShuttingDown]
                 ([], Exited 0, evs)); try reflexivity.
        apply paced_quiet; reflexivity.
      + destruct (request c) as [req|].
        * apply paced_step; [| |apply IH]; unfold answer, when;
            destruct (is_empty req), (send_ok c), (close_ok c); reflexivity.
        * apply paced_step; [reflexivity | reflexivity | apply IH]. }
  destruct (Hloop 0%nat) as (H1 & H2 & H3). unfold paced.
  rewrite trace_emit, unread_emit. cbn [app sleeps injected].
  repeat split; try assumption; apply H3; assumption.
Qed.

Lemma paced_run_body (w : world) (evs : list accept_result) :
  paced evs (run_body s w evs).
Proof.
  apply (inv_run_body s w paced).
  - intros t l Ht. destruct (notices_are_quiet t Ht) as [Hs Hi].
    apply paced_quiet; assumption.
  - intros _ l. apply paced_quiet; reflexivity.
  - intros i d l _. apply paced_inject.
  - apply paced_serve_forever.
  - apply paced_then.
Qed.
End Pause.

(** X7: every pause of a run lasts [close_delay] milliseconds, and one is
    made only when the delay is positive and below the bound from which
    [time.sleep] overflows; there is at most one pause for every injection
    announced and none for a default response; and when the delay is in
    these bounds and the clock lets every pause return, there is exactly
    one pause for every injection. *)
Theorem pause_once_per_injection (s : HTTPReplyTestServer) (w : world)
  (evs : list accept_result) :
  Forall (fun ms => ms = close_delay s /\ 0 < ms < 9223372036855)
         (sleeps (trace (run s w evs)))
  /\ (List.length (sleeps (trace (run s w evs)))
      <= List.length (injected (trace (run s w evs))))%nat
  /\ (0 < close_delay s < 9223372036855 -> steady_clock evs = true ->
      sleeps (trace (run s w evs))
      = repeat (close_delay s)
               (List.length (injected (trace (run s w evs))))).
Proof.
  assert (Hrun : sleeps (trace (run s w evs))
                 = (if bind_ok w then sleeps (trace (run_body s w evs)) else [])
                 /\ injected (trace (run s w evs))
                    = (if bind_ok w then injected (trace (run_body s w evs))
                       else [])).
  { rewrite run_trace. destruct (bind_ok w); [|split; reflexivity].
    cbn [sleeps injected]. rewrite sleeps_app, injected_app.
    destruct (ending (run_body s w evs)); cbn [sleeps injected];
      rewrite !app_nil_r; split; reflexivity. }
  destruct Hrun as [-> ->].
  destruct (paced_run_body s w evs) as (H1 & H2 & H3).
  assert (Hen : ((0 <? close_delay s)
                 && negb (Py.sleep_overflows (close_delay s))) = true
                <-> 0 < close_delay s < 9223372036855).
  { unfold Py.sleep_overflows.
    rewrite andb_true_iff, negb_true_iff, Z.ltb_lt, Z.leb_gt. reflexivity. }
  destruct (bind_ok w).
  - split; [|split].
    + eapply Forall_impl; [|exact H1]. cbv beta. intros ms [-> He].
      split; [reflexivity|]. apply Hen, He.
    + exact H2.
    + intros Hd Hst. destruct (H3 Hst) as [_ Hlen].
      rewrite <- (Hlen (proj2 Hen Hd)).
      clear - H1. induction H1 as [|ms l [-> _] _ IH]; [reflexivity|].
      cbn [List.length repeat]. rewrite <- IH. reflexivity.
  - split; [apply Forall_nil|]. split; [apply Nat.le_refl|].
    intros _ _. reflexivity.
Qed.

Lemma pause_once_per_injection_witness :
  sleeps (trace (run delayed directory_of_four
                     [Connection good; Timeout; Connection good;
                      Connection good]))
  = repeat (close_delay delayed)
           (List.length
              (injected (trace (run delayed directory_of_four
                                    [Connection good; Timeout; Connection good;
                                     Connection good])))).
Proof.
  apply (proj2 (proj2 (pause_once_per_injection delayed directory_of_four
                         [Connection good; Timeout; Connection good;
                          Connection good]))).
  - simpl. lia.
  - reflexivity.
Defined.

(** ** The listening socket *)

Lemma deliver_keeps_socket (s : HTTPReplyTestServer) (i : Z) (d : bytes)
  (c : client) (req : bytes) :
  Forall (fun e => e <> CloseServer) (deliver s i d c req).
Proof.
  unfold deliver, when.
  destruct (is_empty req), (send_ok c), (close_ok c), (0 <? close_delay s),
           (pause_fails s c);
    cbn [negb app]; repeat (constructor; [discriminate|]); constructor.
Qed.

Lemma inject_keeps_socket (s : HTTPReplyTestServer) (i : Z) (d : bytes)
  (evs : list accept_result) :
  Forall (fun e => e <> CloseServer) (trace (inject s i d evs)).
Proof.
  unfold inject. apply Forall_emit; [repeat (constructor; [discriminate|]); constructor|].
  generalize 0%nat as k.
  induction evs as [|r evs IH]; intros k; cbn [inject_loop]; [constructor|].
  destruct r as [| | |c].
  - apply Forall_emit; [|apply IH].
    constructor; [discriminate|]. apply Forall_when.
    constructor; [discriminate|constructor].
  - repeat (constructor; [discriminate|]). constructor.
  - repeat (constructor; [discriminate|]). constructor.
  - destruct (request c) as [req|].
    + unfold trace. cbn [fst]. apply Forall_app. split.
      * repeat (constructor; [discriminate|]). constructor.
      * apply deliver_keeps_socket.
    + destruct (close_ok c).
      * apply Forall_emit; [|apply IH].
        repeat (constructor; [discriminate|]). constructor.
      * repeat (constructor; [discriminate|]). constructor.
Qed.

Lemma serve_forever_keeps_socket (evs : list accept_result) :
  Forall (fun e => e <> CloseServer) (trace (serve_forever evs)).
Proof.
  unfold serve_forever.
  apply Forall_emit; [repeat (constructor; [discriminate|]); constructor|].
  generalize 0%nat as n.
  induction evs as [|r evs IH]; intros n; cbn [serve_loop]; [constructor|].
  destruct r as [| | |c].
  - apply Forall_emit; [|apply IH].
    repeat (constructor; [discriminate|]). constructor.
  - apply Forall_emit; [|apply IH].
    repeat (constructor; [discriminate|]). constructor.
  - repeat (constructor; [discriminate|]). constructor.
  - destruct (request c) as [req|]; (apply Forall_emit; [|apply IH]).
    + unfold answer, when.
      destruct (is_empty req), (send_ok c), (close_ok c); cbn [negb app];
        repeat (constructor; [discriminate|]); constructor.
    + repeat (constructor; [discriminate|]). constructor.
Qed.

Lemma notices_keep_socket (t : list io) :
  forallb is_notice t = true -> Forall (fun e => e <> CloseServer) t.
Proof.
  induction t as [|e t IH]; cbn [forallb]; [constructor|].
  intros H. apply andb_true_iff in H as [He Ht].
  constructor; [|apply IH, Ht]. intros ->. discriminate He.
Qed.

(** X8: the listening socket is closed exactly when the run ends, as its
    last step and only once; while the server is still accepting it is
    never closed. *)
Theorem socket_closed_once_at_the_end (s : HTTPReplyTestServer) (w : world)
  (evs : list accept_result) :
  exists t,
    ~ In CloseServer t
    /\ trace (run s w evs)
       = t ++ match ending (run s w evs) with
              | Waiting => []
              | _ => [CloseServer]
              end.
Proof.
  assert (Hbody : Forall (fun e => e <> CloseServer) (trace (run_body s w evs))).
  { apply (inv_run_body s w
             (fun _ r => Forall (fun e => e <> CloseServer) (trace r))).
    - intros t l Ht. apply notices_keep_socket, Ht.
    - intros _ l. constructor.
    - intros i d l _. apply inject_keeps_socket.
    - apply serve_forever_keeps_socket.
    - intros l r k. apply Forall_and_then. }
  rewrite run_trace, run_ending. destruct (bind_ok w).
  - exists (Print (ServerStarted (port s)) :: Print (Listening (port s))
            :: trace (run_body s w evs)).
    split; [|reflexivity].
    intros [H|[H|H]]; try discriminate H.
    rewrite Forall_forall in Hbody. exact (Hbody _ H eq_refl).
  - exists [Print (Error BindFailed)]. split; [|reflexivity].
    intros [H|[]]. discriminate H.
Qed.

(** ** Numbering of the connections served by default *)

Lemma connection_numbers_app (a b : list io) :
  connection_numbers (a ++ b) = connection_numbers a ++ connection_numbers b.
Proof.
  induction a as [|e a IH]; simpl; [reflexivity|].
  destruct e as [m| | | | | |]; try exact IH.
  destruct m; simpl; rewrite ?IH; reflexivity.
Qed.

Lemma connection_numbers_answer (c : client) (req : bytes) :
  connection_numbers (answer c req) = [].
Proof.
  unfold answer, when.
  destruct (is_empty req), (send_ok c), (close_ok c); reflexivity.
Qed.

(** X9: [serve_forever] numbers the connections it accepts 1, 2, 3, ... in
    the order of their arrival, counting those whose request could not be
    read and skipping timeouts and failures of [accept]. *)
Theorem default_connections_numbered (evs : list accept_result) :
  connection_numbers (trace (serve_forever evs)) = seq 1 (accepted evs).
Proof.
  unfold serve_forever. rewrite trace_emit, connection_numbers_app.
  cbn [connection_numbers app]. generalize 0%nat as n.
  induction evs as [|r evs IH]; intros n; [reflexivity|].
  destruct r as [| | |c]; cbn [serve_loop accepted].
  - rewrite trace_emit, connection_numbers_app. apply IH.
  - rewrite trace_emit, connection_numbers_app. apply IH.
  - reflexivity.
  - destruct (request c) as [req|];
      rewrite trace_emit, connection_numbers_app, IH.
    + cbn [app connection_numbers].
      rewrite connection_numbers_answer. reflexivity.
    + reflexivity.
Qed.

(** ** One test case per connection *)

Lemma inject_readable (s : HTTPReplyTestServer) (i : Z) (d : bytes)
  (c : client) (evs : list accept_result) :
  readable c ->
  payloads (trace (inject s i d (Connection c :: evs))) = [d]
  /\ ending (inject s i d (Connection c :: evs)) = Returned
  /\ unread (inject s i d (Connection c :: evs)) = evs.
Proof.
  unfold readable, inject. cbn [inject_loop].
  destruct (request c) as [req|]; [intros _|congruence].
  unfold emit, trace, ending, unread. cbn [fst snd app payloads].
  rewrite payloads_deliver. repeat split.
Qed.

Lemma length_zero_nil {A : Type} (l : list A) : List.length l = 0%nat -> l = [].
Proof. destruct l; [reflexivity | discriminate]. Qed.

Lemma inject_after_passed_over (s : HTTPReplyTestServer) (i : Z) (d : bytes)
  (pre : list accept_result) (c : client) (evs : list accept_result) :
  forallb passed_over pre = true -> readable c ->
  payloads (trace (inject s i d (pre ++ Connection c :: evs))) = [d]
  /\ ending (inject s i d (pre ++ Connection c :: evs)) = Returned
  /\ unread (inject s i d (pre ++ Connection c :: evs)) = evs.
Proof.
  intros Hpre Hc. unfold readable in Hc.
  destruct (request c) as [req|] eqn:Hreq; [|congruence].
  destruct (inject_loop_after_passed_over s i d pre evs c req Hpre Hreq 0%nat)
    as [t [Hp [_ Ht]]].
  unfold inject. rewrite Ht. unfold emit, trace, ending, unread.
  cbn [fst snd app payloads]. rewrite payloads_app, Hp. cbn [app payloads].
  rewrite payloads_deliver. repeat split.
Qed.

Lemma arrivals_cons (pre : list accept_result) (c : client)
  (segs : list (list accept_result * client)) (rest : list accept_result) :
  arrivals ((pre, c) :: segs) ++ rest
  = pre ++ Connection c :: (arrivals segs ++ rest).
Proof.
  unfold arrivals. cbn [flat_map fst snd]. rewrite <- !app_assoc. reflexivity.
Qed.

Lemma inject_files_delivers (s : HTTPReplyTestServer)
  (cases : list (Z * (string * option bytes))) :
  forall (segs : list (list accept_result * client))
         (rest : list accept_result),
    patient segs ->
    List.length segs = List.length (contents cases) ->
    payloads (trace (inject_files s cases (arrivals segs ++ rest)))
    = contents cases
    /\ ending (inject_files s cases (arrivals segs ++ rest)) = Returned
    /\ unread (inject_files s cases (arrivals segs ++ rest)) = rest.
Proof.
  induction cases as [|[i [n d]] more IH]; intros segs rest Hsegs Hlen.
  - apply length_zero_nil in Hlen. subst segs. repeat split.
  - cbn [inject_files snd]. unfold contents in *. cbn [flat_map snd] in *.
    destruct d as [data|].
    + destruct segs as [|[pre c] segs]; [discriminate Hlen|].
      inversion Hsegs as [|? ? [Hpre Hc] Hsegs']; subst.
      rewrite arrivals_cons. cbn [fst snd] in Hpre, Hc.
      destruct (inject_after_passed_over s i data pre c
                  (arrivals segs ++ rest) Hpre Hc) as [Hp [He Hu]].
      rewrite and_then_returned by exact He.
      rewrite trace_emit, ending_emit, unread_emit, payloads_app, Hp, Hu.
      cbn [app List.length] in Hlen.
      destruct (IH segs rest Hsegs' (eq_add_S _ _ Hlen)) as [Hp' [He' Hu']].
      rewrite Hp', He', Hu'. repeat split.
    + rewrite say_then, trace_emit, ending_emit, unread_emit.
      cbn [app payloads]. apply IH; assumption.
Qed.

Lemma inject_members_delivers (s : HTTPReplyTestServer)
  (members : list (string * option bytes)) (cases : list (Z * string)) :
  forall (segs : list (list accept_result * client))
         (rest : list accept_result),
    patient segs ->
    List.length segs = List.length (zip_contents members cases) ->
    payloads (trace (inject_members s members cases (arrivals segs ++ rest)))
    = zip_contents members cases
    /\ ending (inject_members s members cases (arrivals segs ++ rest))
       = Returned
    /\ unread (inject_members s members cases (arrivals segs ++ rest)) = rest.
Proof.
  induction cases as [|[i n] more IH]; intros segs rest Hsegs Hlen.
  - apply length_zero_nil in Hlen. subst segs. repeat split.
  - cbn [inject_members]. unfold zip_contents in *. cbn [flat_map snd] in *.
    destruct (zip_read members n) as [data|].
    + destruct segs as [|[pre c] segs]; [discriminate Hlen|].
      inversion Hsegs as [|? ? [Hpre Hc] Hsegs']; subst.
      rewrite arrivals_cons. cbn [fst snd] in Hpre, Hc.
      destruct (inject_after_passed_over s i data pre c
                  (arrivals segs ++ rest) Hpre Hc) as [Hp [He Hu]].
      rewrite and_then_returned by exact He.
      rewrite trace_emit, ending_emit, unread_emit, payloads_app, Hp, Hu.
      cbn [app List.length] in Hlen.
      destruct (IH segs rest Hsegs' (eq_add_S _ _ Hlen)) as [Hp' [He' Hu']].
      rewrite Hp', He', Hu'. repeat split.
    + rewrite say_then, trace_emit, ending_emit, unread_emit.
      cbn [app payloads]. apply IH; assumption.
Qed.

Lemma payloads_run (s : HTTPReplyTestServer) (w : world)
  (evs : list accept_result) :
  bind_ok w = true ->
  payloads (trace (run s w evs)) = payloads (trace (run_body s w evs)).
Proof.
  intros Hbind. rewrite run_trace, Hbind. cbn [payloads].
  rewrite payloads_app.
  destruct (ending (run_body s w evs)); cbn [payloads];
    rewrite app_nil_r; reflexivity.
Qed.

Lemma payloads_serve_forever (evs : list accept_result) :
  payloads (trace (serve_forever evs)) = repeat response (answered evs).
Proof.
  unfold serve_forever. rewrite trace_emit, payloads_app.
  apply payloads_serve_loop.
Qed.

Lemma or_else_not_truthy (o : option string) (d : string) :
  Py.truthy o = false -> Py.or_else o d = d.
Proof.
  destruct o as [z|]; simpl; [|reflexivity].
  destruct (z =? "")%string; [reflexivity | discriminate].
Qed.

Lemma or_else_truthy (o : option string) (d : string) :
  Py.truthy o = true -> o = Some (Py.or_else o d).
Proof.
  destruct o as [z|]; simpl; [|discriminate].
  destruct (z =? "")%string; [discriminate | reflexivity].
Qed.

Lemma dir_check_agrees (s : HTTPReplyTestServer)
  (files : list (string * option bytes)) :
  existsb (fun file => match Py.int (fst file) with
                       | Some index => in_range s index
                       | None => false
                       end) files
  = negb (is_empty (dir_test_cases s files)).
Proof.
  induction files as [|f more IH]; cbn [existsb dir_test_cases];
    [reflexivity|].
  destruct (Py.int (fst f)) as [i|]; [|exact IH].
  destruct (in_range s i); [reflexivity | exact IH].
Qed.

Lemma zip_check_agrees (s : HTTPReplyTestServer) (names : list string) :
  existsb (fun file_name =>
             let base_name := Py.basename file_name in
             negb (base_name =? "")%string &&
             match Py.int base_name with
             | Some index => in_range s index
             | None => false
             end) names
  = negb (is_empty (zip_test_cases s names)).
Proof.
  induction names as [|n more IH]; cbn [existsb zip_test_cases];
    [reflexivity|].
  cbv zeta. destruct (Py.basename n =? "")%string; [exact IH|].
  destruct (Py.int (Py.basename n)) as [i|]; [|exact IH].
  destruct (in_range s i); [reflexivity | exact IH].
Qed.

Lemma sorted_is_empty {A : Type} (leb : A -> A -> bool) (l : list A) :
  is_empty (Py.sorted leb l) = is_empty l.
Proof.
  pose proof (sorted_length leb l) as H.
  destruct l, (Py.sorted leb _); try reflexivity; discriminate H.
Qed.

(** X10: without [-file] and without an archive, [sendall] is called with
    the contents of the files of the test directory whose names are in
    range, one per connection whose request can be read, in the order of
    the resolution, whatever timeouts and connections that cannot be read
    come between them; files that cannot be read are passed over, and every
    later connection that is answered gets the default response. *)
Theorem directory_cases_then_default (s : HTTPReplyTestServer) (w : world)
  (children : list (string * option bytes))
  (segs : list (list accept_result * client)) (rest : list accept_result) :
  bind_ok w = true ->
  Py.truthy (single_file s) = false ->
  zip_path s w = None ->
  fs w (test_case_dir s) = Some (Dir children) ->
  patient segs ->
  List.length segs
  = List.length (contents (dir_test_cases s (Py.sorted path_leb children))) ->
  payloads (trace (run s w (arrivals segs ++ rest)))
  = contents (dir_test_cases s (Py.sorted path_leb children))
    ++ repeat response (answered rest).
Proof.
  intros Hbind Hsingle Hzip Hdir Hsegs Hlen.
  rewrite (payloads_run s w _ Hbind).
  assert (Hz : Py.truthy (zip_file s) = false
               /\ exists_ (fs w) (auto_zip_path s) = false).
  { unfold zip_path in Hzip. destruct (Py.truthy (zip_file s)) eqn:Et.
    - rewrite (or_else_truthy _ (auto_zip_path s) Et) in Hzip. discriminate.
    - destruct (exists_ (fs w) (auto_zip_path s)); [discriminate | tauto]. }
  destruct Hz as [Ht Hauto].
  assert (Hhas : has_test_cases s w
    = Some (negb (is_empty (dir_test_cases s (Py.sorted path_leb children))))).
  { unfold has_test_cases. rewrite (or_else_not_truthy _ _ Ht), Hauto.
    cbn [andb negb]. unfold exists_, dir_has_test_cases. rewrite Hdir.
    rewrite dir_check_agrees. reflexivity. }
  unfold run_body. rewrite Hsingle, Hhas.
  destruct (dir_test_cases s (Py.sorted path_leb children)) as [|c0 more] eqn:Ec.
  - cbn [is_empty negb]. apply length_zero_nil in Hlen. subst segs.
    rewrite returned_then, trace_emit, payloads_app.
    cbn [arrivals flat_map app contents]. rewrite payloads_serve_forever.
    destruct (_ && _); reflexivity.
  - cbn [is_empty negb]. unfold parse_test_cases.
    rewrite Hsingle, Hzip, Ht, Hauto. cbn [negb andb when].
    rewrite returned_then. unfold parse_directory. rewrite Hdir, Ec.
    destruct (inject_files_delivers s (c0 :: more) segs rest Hsegs Hlen)
      as [Hp [He Hu]].
    rewrite and_then_returned by (rewrite ending_emit; exact He).
    rewrite !trace_emit, unread_emit, !payloads_app, Hp, Hu.
    rewrite payloads_serve_forever. reflexivity.
Qed.

Lemma directory_cases_then_default_witness :
  payloads (trace (run init directory_of_four
                       (arrivals [([], good);
                                  ([Timeout; Connection mute], good);
                                  ([Timeout; Timeout; Timeout], good);
                                  ([Connection mute], good)]
                        ++ [Timeout; Connection good])))
  = contents (dir_test_cases init (Py.sorted path_leb four_files))
    ++ repeat response (answered [Timeout; Connection good]).
Proof.
  apply (directory_cases_then_default init directory_of_four four_files
           [([], good); ([Timeout; Connection mute], good);
            ([Timeout; Timeout; Timeout], good); ([Connection mute], good)]
           [Timeout; Connection good]);
    try reflexivity.
  repeat constructor; discriminate.
Defined.

Lemma open_zip_exists (w : world) (p : string)
  (members : list (string * option bytes)) :
  open_zip (fs w) p = ZipOk members -> exists_ (fs w) p = true.
Proof.
  unfold open_zip, exists_. destruct (fs w p) as [[| |]|]; discriminate || reflexivity.
Qed.

Lemma zip_path_or_else (s : HTTPReplyTestServer) (w : world) (p : string) :
  zip_path s w = Some p -> Py.or_else (zip_file s) (auto_zip_path s) = p.
Proof.
  unfold zip_path. destruct (Py.truthy (zip_file s)) eqn:Et.
  - rewrite (or_else_truthy _ (auto_zip_path s) Et) at 1. congruence.
  - rewrite (or_else_not_truthy _ _ Et).
    destruct (exists_ (fs w) (auto_zip_path s)); congruence.
Qed.

(** X11: without [-file], when the chosen archive opens and holds a case
    in range, [sendall] is called with its cases in ascending order of
    index, one per connection whose request can be read, whatever timeouts
    and connections that cannot be read come between them, each case with
    the content that the archive gives for the member's name; members that
    cannot be read are passed over, the test directory is not used, and
    every later connection that is answered gets the default response. *)
Theorem zip_cases_then_default (s : HTTPReplyTestServer) (w : world)
  (p : string) (members : list (string * option bytes))
  (segs : list (list accept_result * client)) (rest : list accept_result) :
  bind_ok w = true ->
  Py.truthy (single_file s) = false ->
  zip_path s w = Some p ->
  open_zip (fs w) p = ZipOk members ->
  let cases := Py.sorted Py.tuple_leb (zip_test_cases s (namelist members)) in
  cases <> [] ->
  patient segs ->
  List.length segs = List.length (zip_contents members cases) ->
  payloads (trace (run s w (arrivals segs ++ rest)))
  = zip_contents members cases ++ repeat response (answered rest)
  /\ StronglySorted Z.le (map fst cases).
Proof.
  intros Hbind Hsingle Hzip Hopen cases Hne Hsegs Hlen.
  split; [|apply zip_order_ascending].
  rewrite (payloads_run s w _ Hbind).
  assert (Hempty : is_empty cases = false)
    by (destruct cases; [congruence | reflexivity]).
  assert (Hhas : has_test_cases s w = Some true).
  { unfold has_test_cases.
    rewrite (zip_path_or_else s w p Hzip), (open_zip_exists w p members Hopen).
    unfold zip_has_test_cases. rewrite Hopen, zip_check_agrees.
    unfold cases in Hempty. rewrite sorted_is_empty in Hempty.
    rewrite Hempty. reflexivity. }
  unfold run_body. rewrite Hsingle, Hhas.
  unfold parse_test_cases. rewrite Hsingle, Hzip, returned_then.
  unfold parse_zip. rewrite Hopen. fold cases. rewrite Hempty, say_then.
  destruct (inject_members_delivers s members cases segs rest Hsegs Hlen)
    as [Hp [He Hu]].
  rewrite and_then_returned by (rewrite !ending_emit; exact He).
  rewrite !trace_emit, !unread_emit, !payloads_app, Hp, Hu.
  rewrite payloads_serve_forever.
  destruct (_ && _); reflexivity.
Qed.

Lemma zip_cases_then_default_witness :
  payloads (trace (run init twice_seven
                       (arrivals [([Timeout], good);
                                  ([Connection mute; Timeout], good);
                                  ([], good)]
                        ++ [Connection good])))
  = [payload_C; payload_B; payload_B] ++ [response].
Proof.
  apply (proj1 (zip_cases_then_default init twice_seven "testcases.zip"
                  [("7"%string, Some payload_A); ("3"%string, Some payload_C);
                   ("7"%string, Some payload_B)]
                  [([Timeout], good); ([Connection mute; Timeout], good);
                   ([], good)]
                  [Connection good]
                  eq_refl eq_refl eq_refl eq_refl
                  ltac:(discriminate)
                  ltac:(repeat constructor; discriminate)
                  eq_refl)).
Defined.

(** ** Members of one name *)

Lemma find_member_last (m1 m2 : list (string * option bytes)) (n : string)
  (d : option bytes) :
  ~ In n (map fst m2) -> find_member (m1 ++ (n, d) :: m2) n = Some d.
Proof.
  intros Hn.
  assert (Hm2 : find_member m2 n = None).
  { induction m2 as [|[m e] m2 IH]; [reflexivity|].
    cbn [find_member]. rewrite IH by (intros H; apply Hn; right; exact H).
    destruct (String.eqb_spec m n); [|reflexivity].
    exfalso. apply Hn. left. assumption. }
  induction m1 as [|[m e] m1 IH]; cbn [app find_member].
  - rewrite Hm2, String.eqb_refl. reflexivity.
  - rewrite IH. reflexivity.
Qed.

(** X12: when an archive holds several members of one name, every case of
    that name is injected with the content of the last of them. *)
Theorem last_member_of_a_name_is_injected (s : HTTPReplyTestServer)
  (m1 m2 : list (string * option bytes)) (n : string) (d : bytes) (i : Z)
  (c : client) (rest : list accept_result) :
  ~ In n (map fst m2) -> readable c ->
  payloads (trace (inject_members s (m1 ++ (n, Some d) :: m2) [(i, n)]
                                  (Connection c :: rest)))
  = [d].
Proof.
  intros Hn Hc. cbn [inject_members]. unfold zip_read.
  rewrite (find_member_last m1 m2 n (Some d) Hn).
  destruct (inject_readable s i d c rest Hc) as [Hp [He Hu]].
  rewrite and_then_returned by exact He.
  rewrite trace_emit, payloads_app, Hp. reflexivity.
Qed.

Lemma last_member_of_a_name_is_injected_witness :
  payloads (trace (inject_members init
                     ([("7"%string, Some payload_A); ("3"%string, Some payload_C)]
                      ++ ("7"%string, Some payload_B) :: [])
                     [(7, "7"%string)] (Connection good :: [])))
  = [payload_B].
Proof.
  apply (last_member_of_a_name_is_injected init
           [("7"%string, Some payload_A); ("3"%string, Some payload_C)] []
           "7" payload_B 7 good []).
  - simpl. tauto.
  - discriminate.
Defined.

(** ** The paths that a run reads *)

Lemma parse_zip_local (s : HTTPReplyTestServer) (w w' : world) (p : string)
  (evs : list accept_result) :
  fs w p = fs w' p ->
  fs w (test_case_dir s) = fs w' (test_case_dir s) ->
  parse_zip s w p evs = parse_zip s w' p evs.
Proof.
  intros Hp Hd. unfold parse_zip, open_zip. rewrite Hp.
  destruct (fs w' p) as [[c|raw m|ch]|]; try reflexivity;
    rewrite !say_then, (parse_directory_local s w' w evs Hd); reflexivity.
Qed.

Lemma parse_test_cases_local (s : HTTPReplyTestServer) (w w' : world)
  (evs : list accept_result) :
  Py.truthy (single_file s) = false ->
  fs w (Py.or_else (zip_file s) (auto_zip_path s))
  = fs w' (Py.or_else (zip_file s) (auto_zip_path s)) ->
  fs w (test_case_dir s) = fs w' (test_case_dir s) ->
  parse_test_cases s w evs = parse_test_cases s w' evs.
Proof.
  intros Hsingle Hz Hd. unfold parse_test_cases, zip_path. rewrite Hsingle.
  destruct (Py.truthy (zip_file s)) eqn:Et.
  - pose proof (or_else_truthy _ (auto_zip_path s) Et) as Hzf.
    remember (Py.or_else (zip_file s) (auto_zip_path s)) as z.
    rewrite Hzf. cbn [negb andb when]. rewrite !returned_then.
    rewrite (parse_zip_local s w w' z evs Hz Hd). reflexivity.
  - rewrite (or_else_not_truthy _ _ Et) in Hz.
    unfold exists_. rewrite Hz.
    destruct (fs w' (auto_zip_path s)) eqn:E; cbn [negb andb when];
      rewrite !returned_then.
    + rewrite (parse_zip_local s w w' _ evs (eq_trans Hz (eq_sym E)) Hd).
      reflexivity.
    + rewrite (parse_directory_local s w' w evs Hd). reflexivity.
Qed.

(** X13: a run depends on the file system only through the single file
    when [-file] is given, and otherwise only through the test directory
    and one archive: the explicit one when [-zip] is given, else the one
    named after the directory.  With [-file] neither archive nor directory
    is looked at, and with [-zip] the archive named after the directory is
    not looked at. *)
Theorem run_reads_only_relevant_paths (s : HTTPReplyTestServer)
  (w w' : world) (evs : list accept_result) :
  bind_ok w = bind_ok w' ->
  (forall p, In p (relevant_paths s) -> fs w p = fs w' p) ->
  run s w evs = run s w' evs.
Proof.
  intros Hbind Hfs. unfold relevant_paths in Hfs.
  unfold run. rewrite <- Hbind. f_equal.
  destruct (bind_ok w); [|reflexivity]. rewrite !returned_then. f_equal.
  unfold run_body. destruct (Py.truthy (single_file s)) eqn:Hsingle.
  - pose proof (Hfs _ (or_introl eq_refl)) as Hp. unfold single_path in Hp.
    unfold parse_single_file, read_file. cbv zeta. rewrite Hp. reflexivity.
  - pose proof (Hfs _ (or_introl eq_refl)) as Hz.
    pose proof (Hfs _ (or_intror (or_introl eq_refl))) as Hd.
    assert (Hhas : has_test_cases s w = has_test_cases s w').
    { unfold has_test_cases, zip_has_test_cases, dir_has_test_cases,
        exists_, open_zip. rewrite Hz, Hd. reflexivity. }
    rewrite Hhas, (parse_test_cases_local s w w' evs Hsingle Hz Hd).
    unfold exists_. rewrite Hz, Hd. reflexivity.
Qed.

Lemma run_reads_only_relevant_paths_witness :
  run (configure file_foo) only_foo [Connection good]
  = run (configure file_foo)
        {| bind_ok := true;
           fs := table [("foo.bin"%string, File payload_X);
                        ("testcases.zip"%string,
                         Zip [] [("0"%string, Some payload_Z)]);
                        ("testcases"%string, Dir four_files)] |}
        [Connection good].
Proof.
  apply (run_reads_only_relevant_paths (configure file_foo)).
  - reflexivity.
  - intros p [<-|[]]. reflexivity.
Defined.

(** ** Waiting for a connection that can be read *)

(** X15: [inject] hands its payload to the first connection whose request
    can be read: timeouts, and connections whose request cannot be read
    and which are then closed, are passed over without using up the test
    case, however many come first. *)
Theorem inject_delivers_to_first_readable (s : HTTPReplyTestServer) (i : Z)
  (d : bytes) (pre rest : list accept_result) (c : client) :
  forallb passed_over pre = true -> readable c ->
  payloads (trace (inject s i d (pre ++ Connection c :: rest))) = [d]
  /\ ending (inject s i d (pre ++ Connection c :: rest)) = Returned
  /\ unread (inject s i d (pre ++ Connection c :: rest)) = rest.
Proof.
  intros Hpre Hc. unfold inject.
  rewrite trace_emit, ending_emit, unread_emit. cbn [app payloads].
  generalize 0%nat as k. revert Hpre.
  induction pre as [|e pre IH]; intros Hpre k; cbn [app inject_loop].
  - unfold readable in Hc. destruct (request c) as [req|]; [|congruence].
    unfold trace, ending, unread. cbn [fst snd app payloads].
    rewrite payloads_deliver. repeat split.
  - cbn [forallb] in Hpre. apply andb_true_iff in Hpre as [He Hpre].
    destruct e as [| | |cl]; try discriminate He.
    + rewrite trace_emit, ending_emit, unread_emit, payloads_app.
      replace (payloads (Accept Timeout :: when (Nat.even (S k)) [Print Dot]))
        with (@nil bytes)
        by (cbn [payloads]; destruct (Nat.even (S k)); reflexivity).
      apply IH, Hpre.
    + cbn [passed_over] in He. destruct (request cl); [discriminate He|].
      rewrite He. rewrite trace_emit, ending_emit, unread_emit, payloads_app.
      cbn [payloads app]. apply IH, Hpre.
Qed.

Lemma inject_delivers_to_first_readable_witness :
  payloads (trace (inject init 4 payload_A
                          ([Timeout; Connection mute; Timeout; Timeout]
                           ++ Connection good :: [Connection good])))
  = [payload_A]
  /\ ending (inject init 4 payload_A
                     ([Timeout; Connection mute; Timeout; Timeout]
                      ++ Connection good :: [Connection good])) = Returned
  /\ unread (inject init 4 payload_A
                     ([Timeout; Connection mute; Timeout; Timeout]
                      ++ Connection good :: [Connection good]))
     = [Connection good].
Proof.
  apply (inject_delivers_to_first_readable init 4 payload_A
           [Timeout; Connection mute; Timeout; Timeout] [Connection good] good).
  - reflexivity.
  - discriminate.
Defined.

(** ** Runs with nothing to inject *)

(** X16: when the file given by [-file] cannot be read, the run prints the
    error and ends at once: it accepts no connection, serves no default
    response and closes the listening socket. *)
Theorem unreadable_single_file_ends_run (s : HTTPReplyTestServer) (w : world)
  (evs : list accept_result) :
  bind_ok w = true ->
  Py.truthy (single_file s) = true ->
  read_file (fs w) (single_path s) = None ->
  run s w evs
  = ([Print (ServerStarted (port s)); Print (Listening (port s));
      Print (ReadingFile (single_path s));
      Print (Error (FileFailed (single_path s))); CloseServer],
     Returned, evs).
Proof.
  intros Hbind Hs Hread. unfold run, run_body, parse_single_file.
  cbv zeta. fold (single_path s). rewrite Hbind, Hs, Hread. reflexivity.
Qed.

Lemma unreadable_single_file_ends_run_witness :
  run (configure file_foo) empty_disk [Connection good]
  = ([Print (ServerStarted 8000); Print (Listening 8000);
      Print (ReadingFile "foo.bin");
      Print (Error (FileFailed "foo.bin")); CloseServer],
     Returned, [Connection good]).
Proof.
  apply (unreadable_single_file_ends_run (configure file_foo) empty_disk
           [Connection good] eq_refl eq_refl eq_refl).
Defined.

Lemma injected_serve_forever (evs : list accept_result) :
  injected (trace (serve_forever evs)) = [].
Proof.
  unfold serve_forever. rewrite trace_emit, injected_app. cbn [injected app].
  generalize 0%nat as n.
  induction evs as [|r evs IH]; intros n; [reflexivity|].
  destruct r as [| | |c]; cbn [serve_loop];
    try (rewrite trace_emit, injected_app, IH; reflexivity); [reflexivity|].
  destruct (request c) as [req|]; rewrite trace_emit, injected_app, IH;
    [|reflexivity].
  unfold answer, when.
  destruct (is_empty req), (send_ok c), (close_ok c); reflexivity.
Qed.

Lemma no_cases_serves_default (s : HTTPReplyTestServer) (w : world)
  (evs : list accept_result) :
  bind_ok w = true -> Py.truthy (single_file s) = false ->
  has_test_cases s w = Some false ->
  payloads (trace (run s w evs)) = repeat response (answered evs)
  /\ injected (trace (run s w evs)) = []
  /\ In (Print (NoTestCasesInRange (start_index s) (stop_index s)))
        (trace (run s w evs)).
Proof.
  intros Hbind Hs Hhas. rewrite (payloads_run s w evs Hbind).
  rewrite run_trace, Hbind. unfold run_body. rewrite Hs, Hhas.
  rewrite returned_then, trace_emit, ending_emit.
  split; [|split].
  - rewrite payloads_app, payloads_serve_forever.
    cbn [payloads]. destruct (_ && _); reflexivity.
  - cbn [injected]. rewrite !injected_app, injected_serve_forever.
    destruct (_ && _); destruct (ending _); reflexivity.
  - right. right. apply in_or_app. left. apply in_or_app. left.
    left. reflexivity.
Qed.

Lemma empty_range_no_zip_case (s : HTTPReplyTestServer) (names : list string) :
  stop_index s < start_index s -> zip_test_cases s names = [].
Proof.
  intros Hinv. destruct (zip_test_cases s names) as [|[i n] l] eqn:E;
    [reflexivity|].
  assert (Hin : In (i, n) (zip_test_cases s names))
    by (rewrite E; left; reflexivity).
  apply zip_test_cases_spec in Hin as [_ [_ Hr]].
  apply in_range_iff in Hr. lia.
Qed.

Lemma empty_range_no_dir_case (s : HTTPReplyTestServer)
  (files : list (string * option bytes)) :
  stop_index s < start_index s -> dir_test_cases s files = [].
Proof.
  intros Hinv. destruct (dir_test_cases s files) as [|[i f] l] eqn:E;
    [reflexivity|].
  assert (Hin : In (i, f) (dir_test_cases s files))
    by (rewrite E; left; reflexivity).
  apply dir_test_cases_spec in Hin as [_ [_ Hr]].
  apply in_range_iff in Hr. lia.
Qed.

(** X17: when [stop_index] is below [start_index] no name is in range:
    whatever the archive and the directory hold, nothing is injected and
    every connection that is answered gets the default response. *)
Theorem inverted_range_serves_default (s : HTTPReplyTestServer) (w : world)
  (evs : list accept_result) :
  stop_index s < start_index s ->
  bind_ok w = true -> Py.truthy (single_file s) = false -> listable s w ->
  payloads (trace (run s w evs)) = repeat response (answered evs)
  /\ injected (trace (run s w evs)) = [].
Proof.
  intros Hinv Hbind Hs Hl.
  assert (Hhas : has_test_cases s w = Some false).
  { unfold has_test_cases, dir_has_test_cases.
    assert (Hzip : forall p, zip_has_test_cases s w p = false).
    { intros p. unfold zip_has_test_cases.
      destruct (open_zip (fs w) p); try reflexivity.
      rewrite zip_check_agrees, empty_range_no_zip_case by exact Hinv.
      reflexivity. }
    rewrite Hzip, andb_false_r. cbn [negb andb].
    unfold listable in Hl. unfold exists_.
    destruct (fs w (test_case_dir s)) as [[c|raw m|children]|];
      try contradiction; [|reflexivity].
    rewrite dir_check_agrees, empty_range_no_dir_case by exact Hinv.
    reflexivity. }
  destruct (no_cases_serves_default s w evs Hbind Hs Hhas) as [Hp [Hi _]].
  split; assumption.
Qed.

Lemma inverted_range_serves_default_witness :
  payloads (trace (run (configure inverted) directory_of_four
                       [Connection good; Connection mute; Connection good]))
  = [response; response]
  /\ injected (trace (run (configure inverted) directory_of_four
                          [Connection good; Connection mute; Connection good]))
     = [].
Proof.
  apply (inverted_range_serves_default (configure inverted) directory_of_four
           [Connection good; Connection mute; Connection good]).
  - simpl. unfold Py.maxsize. lia.
  - reflexivity.
  - reflexivity.
  - exact I.
Defined.

(** X18: without [-file], when neither the archive nor the test directory
    exists, the run says so on two lines and serves the default response
    to every connection it answers. *)
Theorem nothing_on_disk_serves_default (s : HTTPReplyTestServer) (w : world)
  (evs : list accept_result) :
  bind_ok w = true -> Py.truthy (single_file s) = false ->
  exists_ (fs w) (Py.or_else (zip_file s) (auto_zip_path s)) = false ->
  exists_ (fs w) (test_case_dir s) = false ->
  run s w evs
  = finish (emit [Print (ServerStarted (port s)); Print (Listening (port s));
                  Print (NoTestCasesInRange (start_index s) (stop_index s));
                  Print (NeitherFound
                           (Py.or_else (zip_file s) (auto_zip_path s))
                           (test_case_dir s))]
                 (serve_forever evs))
  /\ payloads (trace (run s w evs)) = repeat response (answered evs).
Proof.
  intros Hbind Hs Hzip Hdir.
  assert (Hhas : has_test_cases s w = Some false).
  { unfold has_test_cases. rewrite Hzip, Hdir. reflexivity. }
  split.
  - unfold run, run_body. rewrite Hbind, Hs, Hhas, Hzip, Hdir. reflexivity.
  - apply (no_cases_serves_default s w evs Hbind Hs Hhas).
Qed.

Lemma nothing_on_disk_serves_default_witness :
  payloads (trace (run init empty_disk [Connection good; Timeout; Connection good]))
  = [response; response].
Proof.
  apply (proj2 (nothing_on_disk_serves_default init empty_disk
                  [Connection good; Timeout; Connection good]
                  eq_refl eq_refl eq_refl eq_refl)).
Defined.

(** ** Reading before writing *)

Lemma orderly_app (a c : list io) :
  forall ready,
    orderly ready a = true -> (forall b, orderly b c = true) ->
    orderly ready (a ++ c) = true.
Proof.
  induction a as [|e a IH]; intros ready Ha Hc; [apply Hc|].
  destruct e as [m|r|[req|]|d ok|ms|ok|]; cbn [app orderly] in *;
    try (apply IH; assumption).
  apply andb_true_iff in Ha as [-> Ha]. cbn [andb]. apply IH; assumption.
Qed.

Lemma orderly_notices (t : list io) :
  forallb is_notice t = true -> forall b, orderly b t = true.
Proof.
  induction t as [|e t IH]; cbn [forallb]; [reflexivity|].
  intros H b. apply andb_true_iff in H as [He Ht].
  destruct e as [m| | | | | |]; try discriminate He.
  cbn [orderly]. apply IH, Ht.
Qed.

Lemma orderly_inject (s : HTTPReplyTestServer) (i : Z) (d : bytes)
  (evs : list accept_result) :
  forall b, orderly b (trace (inject s i d evs)) = true.
Proof.
  unfold inject. rewrite trace_emit. cbn [app orderly].
  generalize 0%nat as k.
  induction evs as [|r evs IH]; intros k b; cbn [inject_loop];
    [reflexivity|].
  destruct r as [| | |c].
  - rewrite trace_emit. cbn [app orderly].
    apply orderly_app; [|intros b'; apply IH].
    destruct (Nat.even (S k)); reflexivity.
  - reflexivity.
  - reflexivity.
  - destruct (request c) as [req|].
    + unfold trace, deliver, when. cbn [fst app orderly].
      destruct (is_empty req), (send_ok c), (close_ok c),
               (0 <? close_delay s), (pause_fails s c); reflexivity.
    + destruct (close_ok c); [|reflexivity].
      rewrite trace_emit. cbn [app orderly]. apply IH.
Qed.

Lemma orderly_serve_forever (evs : list accept_result) :
  forall b, orderly b (trace (serve_forever evs)) = true.
Proof.
  unfold serve_forever. rewrite trace_emit. cbn [app orderly].
  generalize 0%nat as n.
  induction evs as [|r evs IH]; intros n b; cbn [serve_loop]; [reflexivity|].
  destruct r as [| | |c].
  - rewrite trace_emit. cbn [app orderly]. apply IH.
  - rewrite trace_emit. cbn [app orderly]. apply IH.
  - reflexivity.
  - destruct (request c) as [req|]; rewrite trace_emit.
    + apply orderly_app; [|intros b'; apply IH].
      unfold answer, when. cbn [app orderly].
      destruct (is_empty req), (send_ok c), (close_ok c); reflexivity.
    + cbn [app orderly]. apply IH.
Qed.

(** X19: in every run a payload is written to a connection only after the
    request of that connection has been read, and no connection is written
    to twice. *)
Theorem writes_follow_reads (s : HTTPReplyTestServer) (w : world)
  (evs : list accept_result) :
  orderly false (trace (run s w evs)) = true.
Proof.
  assert (Hbody : forall b, orderly b (trace (run_body s w evs)) = true).
  { apply (inv_run_body s w (fun _ r => forall b, orderly b (trace r) = true)).
    - intros t l Ht. apply orderly_notices, Ht.
    - intros _ l b. reflexivity.
    - intros i d l _. apply orderly_inject.
    - apply orderly_serve_forever.
    - intros l r k Hr Hk b. unfold and_then.
      destruct (ending r); try apply Hr.
      rewrite trace_emit. apply orderly_app; [apply Hr | intros b'; apply Hk]. }
  rewrite run_trace. destruct (bind_ok w); [|reflexivity].
  cbn [orderly]. apply orderly_app; [apply Hbody|].
  intros b. destruct (ending _); reflexivity.
Qed.

(** ** A corrupt archive in a run *)






(** ** Failures of connections in a run *)

Lemma same_request_refl (r : option bytes) : same_request r r = true.
Proof.
  destruct r as [x|]; [|reflexivity]. cbn [same_request].
  destruct (list_eq_dec Byte.byte_eq_dec x x); congruence.
Qed.

Lemma walk_app (st : stage) (a b : list io) :
  walk st (a ++ b)
  = match walk st a with
    | Some st' => walk st' b
    | None => None
    end.
Proof.
  revert st. induction a as [|e a IH]; intros st; cbn [app walk];
    [reflexivity|].
  destruct (advance st e); [apply IH | reflexivity].
Qed.

Lemma accepts_app (a b : list io) : accepts (a ++ b) = accepts a ++ accepts b.
Proof.
  induction a as [|e a IH]; cbn [app accepts]; [reflexivity|].
  destruct e; cbn [app]; rewrite IH; reflexivity.
Qed.

Lemma walk_notices (t : list io) (st : stage) :
  forallb is_notice t = true -> walk st t = Some st /\ accepts t = [].
Proof.
  induction t as [|e t IH]; cbn [forallb]; [split; reflexivity|].
  intros H. apply andb_true_iff in H as [He Ht].
  destruct e as [m| | | | | |]; try discriminate He.
  cbn [walk advance accepts]. apply IH, Ht.
Qed.

Lemma walk_when (b : bool) (m : message) (st : stage) :
  walk st (when b [Print m]) = Some st.
Proof. destruct b; reflexivity. Qed.

Lemma walk_deliver (s : HTTPReplyTestServer) (i : Z) (d : bytes)
  (c : client) (req : bytes) :
  (exists st, walk (Read c) (deliver s i d c req) = Some st
              /\ settled st = true)
  /\ accepts (deliver s i d c req) = [].
Proof.
  unfold deliver, when.
  destruct (is_empty req), (send_ok c) eqn:Es, (close_ok c) eqn:Ec,
           (0 <? close_delay s), (pause_fails s c);
    cbn [negb andb app walk advance accepts]; rewrite ?Es, ?Ec;
    cbn [Bool.eqb walk advance]; rewrite ?Ec; cbn [Bool.eqb walk advance];
    (split; [eexists; split; [reflexivity | reflexivity] | reflexivity]).
Qed.

Lemma walk_answer (c : client) (req : bytes) :
  walk (Read c) (answer c req) = Some Idle /\ accepts (answer c req) = [].
Proof.
  unfold answer, when.
  destruct (is_empty req), (send_ok c) eqn:Es, (close_ok c) eqn:Ec;
    cbn [negb app walk advance accepts]; rewrite ?Es, ?Ec;
    cbn [Bool.eqb walk advance]; rewrite ?Ec; cbn [Bool.eqb walk advance];
    split; reflexivity.
Qed.

Lemma walk_accept (st : stage) (r : accept_result) (t : list io) :
  settled st = true ->
  walk st (Accept r :: t)
  = walk match r with
         | Connection c => Accepted c
         | _ => Idle
         end t.
Proof. intros H. cbn [walk advance]. rewrite H. reflexivity. Qed.

Lemma walk_recv (c : client) (t : list io) :
  walk (Accepted c) (Recv (request c) :: t)
  = walk match request c with
         | Some _ => Read c
         | None => Failed c
         end t.
Proof. cbn [walk advance]. rewrite same_request_refl. reflexivity. Qed.

Section Connections.
Variable s : HTTPReplyTestServer.

(** The trace of a call records every outcome of [accept] that the call
    has consumed, and it deals with each connection as [protocol] says. *)
Let kept (evs : list accept_result) (r : result) : Prop :=
  accepts (trace r) ++ unread r = evs
  /\ forall st, settled st = true ->
       exists st', walk st (trace r) = Some st' /\ settled st' = true.

Lemma kept_quiet (t : list io) (o : outcome) (evs : list accept_result) :
  forallb is_notice t = true -> kept evs (t, o, evs).
Proof.
  intros Ht. split; unfold trace, unread; cbn [fst snd].
  - rewrite (proj2 (walk_notices t Idle Ht)). reflexivity.
  - intros st Hst. exists st. split; [apply (walk_notices t st Ht) | exact Hst].
Qed.

Lemma kept_last (e : accept_result) (t : list io) (o : outcome)
  (evs : list accept_result) :
  accepts t = [e] ->
  (forall st, settled st = true ->
     exists st', walk st t = Some st' /\ settled st' = true) ->
  kept (e :: evs) (t, o, evs).
Proof.
  intros Ha Hw. split; unfold trace, unread; cbn [fst snd].
  - rewrite Ha. reflexivity.
  - exact Hw.
Qed.

Lemma kept_step (e : accept_result) (t : list io) (r : result)
  (evs : list accept_result) :
  accepts t = [e] ->
  (forall st, settled st = true ->
     exists st', walk st t = Some st' /\ settled st' = true) ->
  kept evs r -> kept (e :: evs) (emit t r).
Proof.
  intros Ha Hw [Hr Hp]. split.
  - rewrite trace_emit, unread_emit, accepts_app, Ha. cbn [app].
    rewrite Hr. reflexivity.
  - intros st Hst. rewrite trace_emit, walk_app.
    destruct (Hw st Hst) as [st1 [H1 Hs1]]. rewrite H1. apply Hp, Hs1.
Qed.

Lemma kept_then (evs : list accept_result) (r : result)
  (k : list accept_result -> result) :
  kept evs r -> (forall evs', kept evs' (k evs')) -> kept evs (r ;; k).
Proof.
  intros [Hr Hp] Hk. unfold and_then.
  destruct (ending r); try exact (conj Hr Hp).
  destruct (Hk (unread r)) as [Kr Kp]. split.
  - rewrite trace_emit, unread_emit, accepts_app, <- app_assoc, Kr. exact Hr.
  - intros st Hst. rewrite trace_emit, walk_app.
    destruct (Hp st Hst) as [st1 [H1 Hs1]]. rewrite H1. apply Kp, Hs1.
Qed.

Lemma kept_inject (i : Z) (d : bytes) (evs : list accept_result) :
  kept evs (inject s i d evs).
Proof.
  unfold inject.
  assert (Hloop : forall k, kept evs (inject_loop s i d k evs)).
  { induction evs as [|r evs IH]; intros k; cbn [inject_loop].
    - apply kept_quiet. reflexivity.
    - destruct r as [| | |c].
      + apply kept_step; [destruct (Nat.even (S k)); reflexivity | | apply IH].
        intros st Hst. exists Idle. rewrite (walk_accept st _ _ Hst).
        split; [apply walk_when | reflexivity].
      + apply kept_last; [reflexivity|].
        intros st Hst. exists Idle. rewrite (walk_accept st _ _ Hst).
        split; reflexivity.
      + apply kept_last; [reflexivity|].
        intros st Hst. exists Idle. rewrite (walk_accept st _ _ Hst).
        split; reflexivity.
      + destruct (request c) as [req|] eqn:Hreq.
        * destruct (walk_deliver s i d c req) as [[st' [Hw Hs]] Ha].
          apply kept_last.
          -- rewrite accepts_app, Ha. reflexivity.
          -- intros st Hst. exists st'. cbn [app].
             rewrite (walk_accept st _ _ Hst). cbn [walk advance].
             rewrite <- Hreq at 1. rewrite same_request_refl.
             split; [exact Hw | exact Hs].
        * destruct (close_ok c) eqn:Hclose.
          -- apply kept_step; [reflexivity | | apply IH].
             intros st Hst. exists Idle. rewrite (walk_accept st _ _ Hst).
             cbn [walk advance]. rewrite Hreq. cbn [same_request walk advance].
             rewrite Hclose. split; reflexivity.
          -- apply kept_last; [reflexivity|].
             intros st Hst. exists Idle. rewrite (walk_accept st _ _ Hst).
             cbn [walk advance]. rewrite Hreq. cbn [same_request walk advance].
             rewrite Hclose. split; reflexivity. }
  destruct (Hloop 0%nat) as [Hr Hp]. split.
  - rewrite trace_emit, unread_emit. exact Hr.
  - intros st Hst. rewrite trace_emit. cbn [app walk advance]. apply Hp, Hst.
Qed.

Lemma kept_serve_forever (evs : list accept_result) :
  kept evs (serve_forever evs).
Proof.
  unfold serve_forever.
  assert (Hloop : forall n, kept evs (serve_loop n evs)).
  { induction evs as [|r evs IH]; intros n; cbn [serve_loop].
    - apply kept_quiet. reflexivity.
    - destruct r as [| | |c].
      + apply kept_step; [reflexivity | | apply IH].
        intros st Hst. exists Idle. rewrite (walk_accept st _ _ Hst).
        split; reflexivity.
      + apply kept_step; [reflexivity | | apply IH].
        intros st Hst. exists Idle. rewrite (walk_accept st _ _ Hst).
        split; reflexivity.
      + apply kept_last; [reflexivity|].
        intros st Hst. exists Idle. rewrite (walk_accept st _ _ Hst).
        split; reflexivity.
      + destruct (request c) as [req|] eqn:Hreq.
        * destruct (walk_answer c req) as [Hw Ha].
          apply kept_step; [| |apply IH].
          -- rewrite accepts_app, Ha. reflexivity.
          -- intros st Hst. exists Idle. cbn [app].
             rewrite (walk_accept st _ _ Hst). cbn [walk advance].
             rewrite <- Hreq at 1. rewrite same_request_refl.
             split; [exact Hw | reflexivity].
        * apply kept_step; [reflexivity | | apply IH].
          intros st Hst. exists (Failed c). rewrite (walk_accept st _ _ Hst).
          cbn [walk advance]. rewrite Hreq. split; reflexivity. }
  destruct (Hloop 0%nat) as [Hr Hp]. split.
  - rewrite trace_emit, unread_emit. exact Hr.
  - intros st Hst. rewrite trace_emit. cbn [app walk advance]. apply Hp, Hst.
Qed.

Lemma kept_run_body (w : world) (evs : list accept_result) :
  kept evs (run_body s w evs).
Proof.
  apply (inv_run_body s w kept).
  - intros t l Ht. apply kept_quiet, Ht.
  - intros _ l. apply kept_quiet. reflexivity.
  - intros i d l _. apply kept_inject.
  - apply kept_serve_forever.
  - apply kept_then.
Qed.

Lemma kept_run (w : world) (evs : list accept_result) :
  accepts (trace (run s w evs)) ++ unread (run s w evs) = evs
  /\ protocol (trace (run s w evs)) = true.
Proof.
  destruct (kept_run_body w evs) as [Hr Hp].
  rewrite run_trace, run_unread. unfold protocol.
  destruct (bind_ok w); [|split; reflexivity].
  cbn [accepts walk advance]. rewrite accepts_app, walk_app.
  destruct (Hp Idle eq_refl) as [st [Hw Hs]]. rewrite Hw. split.
  - destruct (ending (run_body s w evs)); cbn [accepts];
      rewrite app_nil_r; exact Hr.
  - destruct (ending (run_body s w evs)); cbn [walk advance];
      rewrite ?Hs; try exact Hs; reflexivity.
Qed.

(** [inject] returns at the first outcome of [accept] that it does not
    pass over, having sent the payload if that outcome is a connection
    whose request it could read. *)
Lemma inject_stops (i : Z) (d : bytes) (pre : list accept_result)
  (e : accept_result) (rest : list accept_result) :
  forallb passed_over pre = true -> passed_over e = false ->
  is_cancel e = false ->
  ending (inject s i d (pre ++ e :: rest)) = Returned
  /\ unread (inject s i d (pre ++ e :: rest)) = rest
  /\ payloads (trace (inject s i d (pre ++ e :: rest))) = delivered_to d e.
Proof.
  intros Hpre He Hc. unfold inject.
  rewrite ending_emit, unread_emit, trace_emit. cbn [app payloads].
  generalize 0%nat as k. revert Hpre.
  induction pre as [|p pre IH]; intros Hpre k; cbn [app inject_loop].
  - destruct e as [| | |c]; try discriminate; [repeat split|].
    cbn [passed_over delivered_to] in *.
    destruct (request c) as [req|].
    + unfold trace, ending, unread. cbn [fst snd app payloads].
      rewrite payloads_deliver. repeat split.
    + rewrite He. repeat split.
  - cbn [forallb] in Hpre. apply andb_true_iff in Hpre as [Hp Hpre].
    destruct p as [| | |cl]; try discriminate Hp.
    + rewrite trace_emit, ending_emit, unread_emit, payloads_app.
      replace (payloads (Accept Timeout :: when (Nat.even (S k)) [Print Dot]))
        with (@nil bytes)
        by (cbn [payloads]; destruct (Nat.even (S k)); reflexivity).
      apply IH, Hpre.
    + cbn [passed_over] in Hp. destruct (request cl); [discriminate Hp|].
      rewrite Hp. rewrite trace_emit, ending_emit, unread_emit, payloads_app.
      cbn [payloads app]. apply IH, Hpre.
Qed.
End Connections.

Lemma serve_forever_never_returns (evs : list accept_result) :
  ending (serve_forever evs) <> Returned.
Proof.
  unfold serve_forever. rewrite ending_emit. generalize 0%nat as n.
  induction evs as [|r evs IH]; intros n; cbn [serve_loop]; [discriminate|].
  destruct r as [| | |c]; try (rewrite ending_emit; apply IH);
    [discriminate|].
  destruct (request c); rewrite ending_emit; apply IH.
Qed.

Lemma then_serve_forever_never_returns (r : result) :
  ending (r ;; serve_forever) <> Returned.
Proof.
  unfold and_then. destruct (ending r) eqn:E; rewrite ?E; try discriminate.
  rewrite ending_emit. apply serve_forever_never_returns.
Qed.

(** C8, as the code has it.  Every failed [accept], [recv], [sendall] or
    [close] is directly followed by a printed report, in injection and in
    default serving alike; the trace records every outcome of [accept] that
    the run has consumed, reads each connection that it accepts and writes
    to each whose request it could read.  Without [-file] no such failure
    ends the run: the run never returns by itself, without a cancellation it
    consumes the whole script and is still accepting at its end, and where
    the socket is bound and the test directory can be listed it exits only
    upon a cancellation.  With [-file] the run is over as soon as its one
    call of [inject] returns, which is at the first outcome of [accept]
    that is neither a timeout nor a connection whose request cannot be read
    and which closes: after the file was sent, but also, with nothing sent,
    after a failed [accept] or a failed [close]. *)
Theorem connection_faults_logged_and_survived (s : HTTPReplyTestServer)
  (w : world) (evs : list accept_result) :
  faults_logged (trace (run s w evs)) = true
  /\ protocol (trace (run s w evs)) = true
  /\ accepts (trace (run s w evs)) ++ unread (run s w evs) = evs
  /\ (Py.truthy (single_file s) = false -> ending (run s w evs) <> Returned)
  /\ (bind_ok w = true -> listable s w -> calm evs = true ->
      Py.truthy (single_file s) = false ->
      ending (run s w evs) = Waiting /\ unread (run s w evs) = [])
  /\ (bind_ok w = true -> calm evs = true ->
      Py.truthy (single_file s) = true ->
      carries_on (run s w evs))
  /\ (bind_ok w = true -> listable s w ->
      forall code, ending (run s w evs) = Exited code -> calm evs = false)
  /\ (bind_ok w = true -> Py.truthy (single_file s) = true ->
      forall X pre e rest,
        read_file (fs w) (single_path s) = Some X ->
        evs = pre ++ e :: rest ->
        forallb passed_over pre = true -> passed_over e = false ->
        is_cancel e = false ->
        ending (run s w evs) = Returned
        /\ unread (run s w evs) = rest
        /\ payloads (trace (run s w evs)) = delivered_to X e).
Proof.
  assert (Hserving : bind_ok w = true -> listable s w -> calm evs = true ->
      Py.truthy (single_file s) = false ->
      ending (run s w evs) = Waiting /\ unread (run s w evs) = []).
  { intros Hbind Hl Hcalm Hsingle. unfold run.
    rewrite finish_ending, finish_unread. rewrite Hbind, returned_then.
    rewrite ending_emit, unread_emit. unfold run_body. rewrite Hsingle.
    pose proof (has_test_cases_listable s w Hl) as Hhas.
    destruct (has_test_cases s w) as [[|]|]; [| |congruence].
    - apply then_serve_forever_waits, carries_on_parse_test_cases; assumption.
    - apply then_serve_forever_waits, carries_on_returned, Hcalm. }
  assert (Hfile : bind_ok w = true -> calm evs = true ->
      Py.truthy (single_file s) = true -> carries_on (run s w evs)).
  { intros Hbind Hcalm Hsingle. unfold carries_on, run.
    rewrite finish_ending, finish_unread. rewrite Hbind, returned_then.
    rewrite ending_emit, unread_emit. unfold run_body. rewrite Hsingle.
    apply carries_on_parse_single_file, Hcalm. }
  split; [apply faults_logged_run|].
  split; [apply kept_run|]. split; [apply kept_run|].
  split; [|split; [exact Hserving|split; [exact Hfile|split]]].
  - intros Hsingle. rewrite run_ending.
    destruct (bind_ok w); [|discriminate].
    unfold run_body. rewrite Hsingle.
    destruct (has_test_cases s w) as [[|]|];
      [apply then_serve_forever_never_returns
      |apply then_serve_forever_never_returns
      |discriminate].
  - intros Hbind Hl code Hexit.
    destruct (calm evs) eqn:Hcalm; [|reflexivity].
    destruct (Py.truthy (single_file s)) eqn:Hsingle.
    + destruct (Hfile Hbind eq_refl eq_refl) as [[H _]|[H _]]; congruence.
    + destruct (Hserving Hbind Hl eq_refl eq_refl) as [H _]. congruence.
  - intros Hbind Hsingle X pre e rest Hread -> Hpre He Hc.
    rewrite run_ending, run_unread, (payloads_run s w _ Hbind), Hbind.
    unfold run_body, parse_single_file. rewrite Hsingle. cbv zeta.
    fold (single_path s). rewrite Hread, say_then.
    rewrite ending_emit, unread_emit, trace_emit. cbn [app payloads].
    apply inject_stops; assumption.
Qed.

Lemma connection_faults_logged_and_survived_witness :
  (faults_logged (trace (run init directory_of_four rough_script)) = true
   /\ protocol (trace (run init directory_of_four rough_script)) = true
   /\ accepts (trace (run init directory_of_four rough_script)) = rough_script
   /\ ending (run init directory_of_four rough_script) = Waiting
   /\ unread (run init directory_of_four rough_script) = [])
  /\ ending (main file_foo only_foo
                  ([Timeout; Connection mute]
                   ++ AcceptFails :: [Connection good])) = Returned
  /\ unread (main file_foo only_foo
                  ([Timeout; Connection mute]
                   ++ AcceptFails :: [Connection good])) = [Connection good]
  /\ payloads (trace (main file_foo only_foo
                           ([Timeout; Connection mute]
                            ++ AcceptFails :: [Connection good]))) = [].
Proof.
  split.
  - destruct (connection_faults_logged_and_survived
                init directory_of_four rough_script)
      as [Hlogged [Hproto [Haccepts [_ [Hwaits _]]]]].
    destruct (Hwaits eq_refl I eq_refl eq_refl) as [Hw Hu].
    rewrite Hu, app_nil_r in Haccepts. repeat split; assumption.
  - destruct (connection_faults_logged_and_survived
                (configure file_foo) only_foo
                ([Timeout; Connection mute]
                 ++ AcceptFails :: [Connection good]))
      as [_ [_ [_ [_ [_ [_ [_ Hstops]]]]]]].
    exact (Hstops eq_refl eq_refl payload_X [Timeout; Connection mute]
             AcceptFails [Connection good] eq_refl eq_refl eq_refl eq_refl
             eq_refl).
Defined.

(** C8 as stated fails with [-file]: one failed [accept] ends the run,
    with no cancellation; the file is not sent and the connection that
    comes next is never accepted. *)
Lemma accept_failure_ends_single_file_run :
  main file_foo only_foo [AcceptFails; Connection good]
  = ([Print (ServerStarted 8000); Print (Listening 8000);
      Print (ReadingFile "foo.bin"); Print WaitingForConnect;
      Accept AcceptFails; Print (Error AcceptFailed); CloseServer],
     Returned, [Connection good])
  /\ calm [AcceptFails; Connection good] = true.
Proof. split; reflexivity. Qed.
